(** * ModernWMS (Python port): token cache and JWT session lifecycle

    A shallow embedding of [app/cache.py] (the [TokenCache] session store),
    of [app/security.py] ([get_current_user], [create_access_token],
    [create_refresh_token], the role permissions), of the handlers of
    [app/routers/auth.py] ([login], [refresh_token], [logout],
    [change_password]) and of [app/utils/hash.py], followed by the
    properties of the specification that concern them and by further
    properties of the same code.

    Conventions of the embedding:
    - Python [int] is [Z]; [str] is [string] (ASCII); a [dict] is a [gmap].
    - Instants ([datetime]) and durations ([timedelta]) are [Z], in seconds.
      Every call of [datetime.now] is an explicit argument of the operation
      that performs it.  The sum of an instant and a duration is taken in
      [Z]: the [OverflowError] of [datetime] for a sum outside the years 1
      to 9999 is not modelled, and what is stated of [set_token] is stated
      of calls whose expiry is a [datetime].
    - The database behind the principal queries is a parameter
      ([Security.Deps]).  [Queries.shipped] puts in front of it the column
      expressions from which the handlers build their filters, evaluated
      against the columns that [app/models.py] declares.
    - A Python computation yields an [outcome]: a returned value or a raised
      exception.  Computations on the cache additionally return the cache
      they leave behind, also when they raise.
    - The lock of [TokenCache] serialises the operations; each operation is
      therefore modelled as one atomic state transformer. *)

From Stdlib Require Import ZArith String Ascii Decimal DecimalString DecimalPos DecimalN.
From stdpp Require Import gmap strings list fin_maps.

Set Warnings "-register-all".
Local Open Scope string_scope.
Local Open Scope Z_scope.

(** ** Python outcomes *)

Module Py.

(** The exceptions that the modelled code can raise or let through.
    [HTTPException] carries status code, detail and the value of the
    [WWW-Authenticate] header. *)
Inductive exn : Type :=
  | KeyError
  | IndexError
  | ValueError
  | TypeError
  | AttributeError
  | JWTError
  | ValidationError
  | HTTPException (status_code : Z) (detail : string) (www_authenticate : string)
  | OtherError (name : string).

Inductive outcome (A : Type) : Type :=
  | Ret (a : A)
  | Raise (e : exn).
Arguments Ret {A} a.
Arguments Raise {A} e.

Definition bind {A B} (m : outcome A) (k : A -> outcome B) : outcome B :=
  match m with
  | Ret a => k a
  | Raise e => Raise e
  end.

(** [try: body except (classes): handler] *)
Definition try_except {A} (body : outcome A) (caught : exn -> bool)
    (handler : exn -> outcome A) : outcome A :=
  match body with
  | Ret a => Ret a
  | Raise e => if caught e then handler e else Raise e
  end.

Definition is_Ret {A} (m : outcome A) : bool :=
  match m with Ret _ => true | Raise _ => false end.

(** *** Strings *)

(** [s.split(sep)] for a one-character separator: never the empty list. *)
Fixpoint split (sep : ascii) (s : string) : list string :=
  match s with
  | EmptyString => [EmptyString]
  | String a r =>
      if Ascii.eqb a sep then EmptyString :: split sep r
      else match split sep r with
           | [] => [String a EmptyString]
           | h :: t => String a h :: t
           end
  end.

(** [l[-1]] *)
Definition item_last {A} (l : list A) : outcome A :=
  match last l with
  | Some x => Ret x
  | None => Raise IndexError
  end.

(** [needle in hay], both [str] *)
Fixpoint is_substring (needle hay : string) : bool :=
  String.prefix needle hay ||
  match hay with
  | EmptyString => false
  | String _ r => is_substring needle r
  end.

(** The ASCII characters that [str.strip] and [int] treat as white space. *)
Definition is_space (a : ascii) : bool :=
  let n := nat_of_ascii a in
  ((9 <=? n)%nat && (n <=? 13)%nat) || ((28 <=? n)%nat && (n <=? 32)%nat).

Definition is_digit (a : ascii) : bool :=
  match Ascii.is_nat a with Some _ => true | None => false end.

Fixpoint lstrip (s : string) : string :=
  match s with
  | EmptyString => EmptyString
  | String a r => if is_space a then lstrip r else s
  end.

Fixpoint rstrip (s : string) : string :=
  match s with
  | EmptyString => EmptyString
  | String a r =>
      match rstrip r with
      | EmptyString => if is_space a then EmptyString else String a EmptyString
      | r' => String a r'
      end
  end.

Definition strip (s : string) : string := rstrip (lstrip s).

(** The digit part of an integer literal: digits, with single underscores
    allowed between two digits.  Returns the digits. *)
Fixpoint int_digits (s : string) (after_digit : bool) : option string :=
  match s with
  | EmptyString => if after_digit then Some EmptyString else None
  | String a r =>
      if is_digit a then String a <$> int_digits r true
      else if Ascii.eqb a "_" && after_digit then int_digits r false
      else None
  end.

(** [int(s)] for [s : str], base 10, on ASCII input: surrounding white space
    is ignored, one sign is allowed; anything else raises [ValueError]. *)
Definition py_int (s : string) : outcome Z :=
  let body := strip s in
  let '(neg, r) :=
    match body with
    | String "-" r => (true, r)
    | String "+" r => (false, r)
    | _ => (false, body)
    end in
  match int_digits r false ≫= NilEmpty.uint_of_string with
  | Some d => Ret (if neg : bool then - Z.of_uint d else Z.of_uint d)
  | None => Raise ValueError
  end.

(** [str(z)] for [z : int], as used by the f-strings [f"user:{id}"]. *)
Definition py_str (z : Z) : string :=
  match z with
  | Z0 => "0"
  | Zpos p => NilEmpty.string_of_uint (Pos.to_uint p)
  | Zneg p => String "-" (NilEmpty.string_of_uint (Pos.to_uint p))
  end.

(** [" ".join(l)] *)
Definition join_space (l : list string) : string := String.concat " " l.

(** *** JSON values, as they come out of a decoded token *)

Inductive jval : Type :=
  | JNull
  | JBool (b : bool)
  | JNum (z : Z)
  | JStr (s : string)
  | JArr (l : list jval)
  | JObj (l : list (string * jval)).

(** [v == s] for a string [s] *)
Definition eq_str (v : jval) (s : string) : bool :=
  match v with
  | JStr s' => bool_decide (s' = s)
  | _ => false
  end.

(** [scope in v]: membership in a list, substring of a string, key of a
    dictionary; [TypeError] on values that are no containers. *)
Definition py_in (scope : string) (v : jval) : outcome bool :=
  match v with
  | JArr l => Ret (existsb (fun x => eq_str x scope) l)
  | JStr s => Ret (is_substring scope s)
  | JObj l => Ret (existsb (fun kv => bool_decide (kv.1 = scope)) l)
  | JNull | JBool _ | JNum _ => Raise TypeError
  end.

End Py.
Export Py.

Declare Scope py_scope.
Delimit Scope py_scope with py.
Notation "x <- m ;; k" := (Py.bind m (fun x => k))
  (at level 100, m at next level, right associativity) : py_scope.

(** ** The token codec and the configuration: [jose.jwt], [app/config.py]

    The codec is a library and the configuration comes from the process
    environment; both are taken as given.  [jwt_decode] stands for
    [jwt.decode(token, JWT_SECRET, algorithms=["HS256"], audience=JWT_AUDIENCE,
    issuer=JWT_ISSUER)], which verifies signature, expiry, issuer and audience
    and raises [JWTError] (or a subclass of it) when one of them fails;
    [jwt_encode] stands for [jwt.encode(claims, JWT_SECRET, algorithm="HS256")]. *)

Module Jose.

(** A decoded claim set: the [dict] returned by [jwt.decode]. *)
Abbreviation Payload := (gmap string jval).

Record Codec : Type := mkCodec {
  JWT_ISSUER : string;
  JWT_AUDIENCE : string;
  JWT_EXPIRE_MINUTES : Z;
  jwt_encode : Payload -> string;
  jwt_decode : string -> outcome Payload
}.

(** [payload.get(key, default)] *)
Definition get (payload : Payload) (key : string) (dflt : jval) : jval :=
  default dflt (payload !! key).

(** [int(payload.get("sub", dflt).split(":")[-1])]; a subject that is not a
    string has no [split]. *)
Definition subject_id (payload : Payload) (dflt : string) : outcome Z :=
  match get payload "sub" (JStr dflt) with
  | JStr sub => (seg <- item_last (split ":" sub) ;; py_int seg)%py
  | _ => Raise AttributeError
  end.

End Jose.

(** ** The session store: [app/cache.py] *)

Declare Scope cache_scope.
Delimit Scope cache_scope with cache.

Module Cache.

(** Value of [_refresh_tokens[user_id]]:
    [{"refresh_token": str, "expires_at": datetime, "metadata": {"created_at": datetime}}] *)
Record RefreshEntry : Type := mkRefreshEntry {
  refresh_token : string;
  expires_at : Z;
  created_at : Z
}.

(** Value of [_token_lookup[token]]: [{"user_id": int, "expires_at": datetime}] *)
Record LookupEntry : Type := mkLookupEntry {
  user_id : Z;
  lk_expires_at : Z
}.

Record TokenCache : Type := mkTokenCache {
  _refresh_tokens : gmap Z RefreshEntry;
  _token_lookup : gmap string LookupEntry
}.

(** [TokenCache.__init__] *)
Definition init : TokenCache := mkTokenCache ∅ ∅.

(** A method of the cache: the outcome together with the cache afterwards. *)
Definition M (A : Type) : Type := TokenCache -> outcome A * TokenCache.

Definition ret {A} (a : A) : M A := fun c => (Ret a, c).
Definition cbind {A B} (m : M A) (k : A -> M B) : M B :=
  fun c => match m c with
           | (Ret a, c') => k a c'
           | (Raise e, c') => (Raise e, c')
           end.
Definition lift {A} (o : outcome A) : M A := fun c => (o, c).

Local Notation "x <- m ;; k" := (cbind m (fun x => k))
  (at level 100, m at next level, right associativity) : cache_scope.

(** [try: body except (classes): handler], for a method of the cache: what
    the body did to the cache before it raised stays done. *)
Definition ctry {A} (body : M A) (caught : exn -> bool) (handler : exn -> M A) : M A :=
  fun c => match body c with
           | (Ret a, c') => (Ret a, c')
           | (Raise e, c') => if caught e then handler e c' else (Raise e, c')
           end.

(** [_invalidate_user_tokens]: [del self._token_lookup[token]] raises
    [KeyError] when the recorded token has no lookup entry; nothing has been
    deleted at that point. *)
Definition _invalidate_user_tokens (user_id : Z) : M bool := fun c =>
  match _refresh_tokens c !! user_id with
  | None => (Ret false, c)
  | Some e =>
      let token := refresh_token e in
      match _token_lookup c !! token with
      | None => (Raise KeyError, c)
      | Some _ =>
          (Ret true,
           mkTokenCache (delete user_id (_refresh_tokens c))
                        (delete token (_token_lookup c)))
      end
  end.

(** [_invalidate_token] *)
Definition _invalidate_token (token : string) : M bool := fun c =>
  match _token_lookup c !! token with
  | None => (Ret false, c)
  | Some i =>
      let user_id := user_id i in
      let refresh :=
        match _refresh_tokens c !! user_id with
        | Some _ => delete user_id (_refresh_tokens c)
        | None => _refresh_tokens c
        end in
      (Ret true, mkTokenCache refresh (delete token (_token_lookup c)))
  end.

(** [set_token]; [now] is the clock read for [expires_at], [created] the one
    for the metadata. *)
Definition set_token (now created : Z) (user_id : Z) (token : string)
    (expires_delta : Z) : M unit := fun c =>
  let expires_at := now + expires_delta in
  match _invalidate_user_tokens user_id c with
  | (Raise e, c') => (Raise e, c')
  | (Ret _, c') =>
      (Ret tt,
       mkTokenCache
         (<[user_id := mkRefreshEntry token expires_at created]> (_refresh_tokens c'))
         (<[token := mkLookupEntry user_id expires_at]> (_token_lookup c')))
  end.

(** [get_user_id_by_token] *)
Definition get_user_id_by_token (now : Z) (token : string) : M (option Z) := fun c =>
  match _token_lookup c !! token with
  | None => (Ret None, c)
  | Some token_info =>
      if lk_expires_at token_info <? now then
        match _invalidate_token token c with
        | (Raise e, c') => (Raise e, c')
        | (Ret _, c') => (Ret None, c')
        end
      else (Ret (Some (user_id token_info)), c)
  end.

(** [delete_token] *)
Definition delete_token (user_id : Z) : M bool :=
  _invalidate_user_tokens user_id.

(** The first loop of [cleanup_expired_tokens]:
    [for token in expired_tokens: self._invalidate_token(token); removed += 1] *)
Fixpoint cleanup_tokens_loop (expired_tokens : list string) (removed : Z)
    (c : TokenCache) : outcome Z * TokenCache :=
  match expired_tokens with
  | [] => (Ret removed, c)
  | token :: rest =>
      match _invalidate_token token c with
      | (Raise e, c') => (Raise e, c')
      | (Ret _, c') => cleanup_tokens_loop rest (removed + 1) c'
      end
  end.

(** The second loop:
    [for user_id in expired_users: del self._refresh_tokens[user_id]; removed += 1] *)
Fixpoint cleanup_users_loop (expired_users : list Z) (removed : Z)
    (c : TokenCache) : outcome Z * TokenCache :=
  match expired_users with
  | [] => (Ret removed, c)
  | user_id :: rest =>
      match _refresh_tokens c !! user_id with
      | None => (Raise KeyError, c)
      | Some _ =>
          cleanup_users_loop rest (removed + 1)
            (mkTokenCache (delete user_id (_refresh_tokens c)) (_token_lookup c))
      end
  end.

(** [cleanup_expired_tokens].  The two list comprehensions are evaluated
    before their loops run.  They enumerate the items in the order of
    [map_to_list] instead of Python's insertion order; the loops delete
    distinct keys and count them, so the order does not show in the result
    ([tokens_loop_lookup], [tokens_loop_refresh], [users_loop_spec]). *)
Definition cleanup_expired_tokens (now : Z) : M Z := fun c =>
  let expired_tokens :=
    (filter (fun kv => lk_expires_at kv.2 < now) (map_to_list (_token_lookup c))).*1 in
  match cleanup_tokens_loop expired_tokens 0 c with
  | (Raise e, c') => (Raise e, c')
  | (Ret removed, c') =>
      let expired_users :=
        (filter (fun kv => expires_at kv.2 < now) (map_to_list (_refresh_tokens c'))).*1 in
      cleanup_users_loop expired_users removed c'
  end.

(** [verify_token]: only [JWTError] is caught. *)
Definition verify_token (J : Jose.Codec) (now : Z) (token : string)
    : M (option Jose.Payload) :=
  ctry
    (payload <- lift (Jose.jwt_decode J token) ;;
     if eq_str (Jose.get payload "type" JNull) "refresh" then
       user_id <- get_user_id_by_token now token ;;
       match user_id with
       | None | Some 0 => ret None
       | Some user_id =>
           sub_id <- lift (Jose.subject_id payload ":") ;;
           if bool_decide (user_id <> sub_id) then ret None
           else ret (Some payload)
       end
     else ret (Some payload))%cache
    (fun e => match e with JWTError => true | _ => false end)
    (fun _ => ret None).

End Cache.

Notation "x <- m ;; k" := (Cache.cbind m (fun x => k))
  (at level 100, m at next level, right associativity) : cache_scope.

(** ** The principals: [app/models.py] *)

Module Models.

Record User : Type := mkUser {
  user_id : Z;
  user_num : string;
  user_name : string;
  password : string;
  user_role : string;
  userrole_id : Z;
  tenant_id : Z;
  email : option string;
  phone : option string
}.

End Models.

(** ** The response envelope: [app/schemas.py] *)

Module Schemas.

(** The payloads that the authentication handlers return in [data]. *)
Inductive Data : Type :=
  | LoginData (user_id : Z) (user_name user_num user_role : string)
      (userrole_id tenant_id : Z) (email phone : option string)
      (access_token token_type : string) (expires_in : Z)
      (refresh_token : string) (scopes : list string)
  | RefreshData (access_token token_type : string) (expires_in : Z)
      (refresh_token : string) (user_id : Z) (scopes : list string)
  | Message (text : string).

Record ResultModel : Type := mkResult {
  isSuccess : bool;
  code : Z;
  errorMessage : string;
  data : option Data
}.

Definition result_success (d : Data) : ResultModel := mkResult true 200 "" (Some d).
Definition result_error (msg : string) (code : Z) : ResultModel :=
  mkResult false code msg None.

End Schemas.

(** ** Token minting and request authorisation: [app/security.py] *)

Module Security.

(** What the handlers consume from outside the session core: the queries on
    the [users] table and the password functions.  A query returns a row,
    returns nothing, or raises.  [Queries], below, has the queries as the
    handlers build them over the columns of [models.User]. *)
Record Deps : Type := mkDeps {
  (** [select(User).where(User.id == user_id, is_active, not is_deleted)] *)
  query_active_user : Z -> outcome (option Models.User);
  (** [select(User).where(or_(user_name == name, user_num == name), is_active, not is_deleted)] *)
  query_login_user : string -> outcome (option Models.User);
  md5_hex : string -> string;
  verify_password : string -> string -> outcome bool
}.

Definition HTTP_400_BAD_REQUEST : Z := 400.
Definition HTTP_401_UNAUTHORIZED : Z := 401.
Definition HTTP_403_FORBIDDEN : Z := 403.
Definition HTTP_404_NOT_FOUND : Z := 404.

Definition minutes (n : Z) : Z := n * 60.
Definition days (n : Z) : Z := n * 86400.

(** The claim set [to_encode] that [create_access_token(data, expires_delta,
    scopes)] builds. *)
Definition access_to_encode (J : Jose.Codec) (now : Z) (data : Jose.Payload)
    (expires_delta : option Z) (scopes : option (list string)) : Jose.Payload :=
  let expire :=
    match expires_delta with
    | Some d => if bool_decide (d = 0) then now + minutes (Jose.JWT_EXPIRE_MINUTES J)
                else now + d
    | None => now + minutes (Jose.JWT_EXPIRE_MINUTES J)
    end in
  let scopes :=
    match scopes with
    | Some (s :: l) => s :: l
    | Some [] | None => ["user"]
    end in
  <["scopes" := JArr (JStr <$> scopes)]>
  (<["aud" := JStr (Jose.JWT_AUDIENCE J)]>
  (<["iss" := JStr (Jose.JWT_ISSUER J)]>
  (<["iat" := JNum now]>
  (<["exp" := JNum expire]> data)))).

(** [create_access_token(data, expires_delta, scopes)] *)
Definition create_access_token (J : Jose.Codec) (now : Z) (data : Jose.Payload)
    (expires_delta : option Z) (scopes : option (list string)) : string :=
  Jose.jwt_encode J (access_to_encode J now data expires_delta scopes).

(** The claim set that [create_refresh_token(user_id, expires_delta)] builds. *)
Definition refresh_to_encode (J : Jose.Codec) (now : Z) (user_id : Z)
    (expires_delta : option Z) : Jose.Payload :=
  let expire :=
    match expires_delta with
    | Some d => if bool_decide (d = 0) then now + days 30 else now + d
    | None => now + days 30
    end in
  <["sub" := JStr ("refresh:" +:+ py_str user_id)]>
  (<["exp" := JNum expire]>
  (<["iat" := JNum now]>
  (<["iss" := JStr (Jose.JWT_ISSUER J)]>
  (<["aud" := JStr (Jose.JWT_AUDIENCE J)]>
  (<["type" := JStr "refresh"]> ∅))))).

(** [create_refresh_token(user_id, expires_delta)] *)
Definition create_refresh_token (J : Jose.Codec) (now : Z) (user_id : Z)
    (expires_delta : option Z) : string :=
  Jose.jwt_encode J (refresh_to_encode J now user_id expires_delta).

Definition dquote : string := String (ascii_of_nat 34) EmptyString.

(** The value of the [WWW-Authenticate] header. *)
Definition authenticate_value (security_scopes : list string) : string :=
  match security_scopes with
  | [] => "Bearer"
  | _ => "Bearer scope=" +:+ dquote +:+ join_space security_scopes +:+ dquote
  end.

Definition credentials_exception (security_scopes : list string) : exn :=
  HTTPException HTTP_401_UNAUTHORIZED "Could not validate credentials"
    (authenticate_value security_scopes).

(** The loop over the required scopes:
    [for scope in security_scopes.scopes: if scope not in token_scopes: raise ...] *)
Fixpoint check_scopes (all_scopes : list string) (token_scopes : jval)
    (remaining : list string) : outcome unit :=
  match remaining with
  | [] => Ret tt
  | scope :: rest =>
      (present <- py_in scope token_scopes ;;
       if present : bool then check_scopes all_scopes token_scopes rest
       else Raise (HTTPException HTTP_403_FORBIDDEN "Not enough permissions"
                     (authenticate_value all_scopes)))%py
  end.

(** [get_current_user(security_scopes, token, db)] *)
Definition get_current_user (J : Jose.Codec) (D : Deps)
    (security_scopes : list string) (token : string) : outcome Models.User :=
  try_except
    (payload <- Jose.jwt_decode J token ;;
     user_id <- Jose.subject_id payload "" ;;
     if bool_decide (user_id = 0) then Raise (credentials_exception security_scopes)
     else
       let token_type := Jose.get payload "type" (JStr "access") in
       if negb (eq_str token_type "access") then
         Raise (HTTPException HTTP_403_FORBIDDEN "Invalid token type"
                  (authenticate_value security_scopes))
       else
         user <- query_active_user D user_id ;;
         match user with
         | None => Raise (credentials_exception security_scopes)
         | Some user =>
             let token_scopes := Jose.get payload "scopes" (JArr []) in
             _ <- check_scopes security_scopes token_scopes security_scopes ;;
             Ret user
         end)%py
    (fun e => match e with JWTError | ValidationError => true | _ => false end)
    (fun _ => Raise (credentials_exception security_scopes)).

End Security.

(** ** The handlers: [app/routers/auth.py] *)

Module Auth.

Import Schemas Security.

(** The scopes that [login] and [refresh_token] derive from the role:
    [scopes = ["user"]], extended by [["admin", "manager"]] for an admin and
    by ["manager"] for a manager. *)
Definition role_scopes (user_role : string) : list string :=
  if bool_decide (user_role = "admin") then ["user"; "admin"; "manager"]
  else if bool_decide (user_role = "manager") then ["user"; "manager"]
  else ["user"].

(** The claims of the access token that both handlers mint for a principal:
    [data={"sub": f"user:{user.user_id}"}], thirty minutes, the scopes. *)
Definition minted_claims (J : Jose.Codec) (now : Z) (user : Models.User)
    (scopes : list string) : Jose.Payload :=
  access_to_encode J now
    {["sub" := JStr ("user:" +:+ py_str (Models.user_id user))]}
    (Some (minutes 30)) (Some scopes).

Definition mint_access_token (J : Jose.Codec) (now : Z) (user : Models.User)
    (scopes : list string) : string :=
  create_access_token J now
    {["sub" := JStr ("user:" +:+ py_str (Models.user_id user))]}
    (Some (minutes 30)) (Some scopes).

(** [login(form_data, db)]; the four instants are the clock reads of
    [create_access_token], [create_refresh_token] and [set_token]. *)
Definition login (J : Jose.Codec) (D : Deps)
    (now_access now_refresh now_put now_created : Z)
    (username password : string) : Cache.M ResultModel :=
  (user <- Cache.lift (query_login_user D username) ;;
   match user with
   | None =>
       Cache.ret (result_error "Incorrect username or password" HTTP_400_BAD_REQUEST)
   | Some user =>
       let incoming_pwd :=
         if bool_decide (String.length password <> 32%nat) then md5_hex D password
         else password in
       ok <- Cache.lift (verify_password D incoming_pwd (Models.password user)) ;;
       if negb ok then
         Cache.ret (result_error "Incorrect username or password" HTTP_400_BAD_REQUEST)
       else
         let scopes := role_scopes (Models.user_role user) in
         let access_token_expires := minutes 30 in
         let access_token := mint_access_token J now_access user scopes in
         let refresh_token :=
           create_refresh_token J now_refresh (Models.user_id user) None in
         _ <- Cache.set_token now_put now_created (Models.user_id user)
                refresh_token (days 30) ;;
         Cache.ret (result_success
           (LoginData (Models.user_id user) (Models.user_name user)
              (Models.user_num user) (Models.user_role user)
              (Models.userrole_id user) (Models.tenant_id user)
              (Models.email user) (Models.phone user)
              access_token "bearer" access_token_expires refresh_token scopes))
   end)%cache.

(** [refresh_token(refresh_token, db)]: the body runs under
    [except Exception], which catches everything the body can raise. *)
Definition refresh_token (J : Jose.Codec) (D : Deps) (now_lookup now_access : Z)
    (refresh_token : string) : Cache.M ResultModel :=
  Cache.ctry
    (payload <- Cache.verify_token J now_lookup refresh_token ;;
     match payload with
     | None => Cache.ret (result_error "Invalid refresh token" HTTP_400_BAD_REQUEST)
     | Some payload =>
         if bool_decide (payload = ∅)
            || negb (eq_str (Jose.get payload "type" JNull) "refresh") then
           Cache.ret (result_error "Invalid refresh token" HTTP_400_BAD_REQUEST)
         else
           user_id <- Cache.lift (Jose.subject_id payload ":") ;;
           if bool_decide (user_id = 0) then
             Cache.ret (result_error "Invalid token format" HTTP_400_BAD_REQUEST)
           else
             user <- Cache.lift (query_active_user D user_id) ;;
             match user with
             | None => Cache.ret (result_error "User not found" HTTP_404_NOT_FOUND)
             | Some user =>
                 let scopes := role_scopes (Models.user_role user) in
                 let access_token_expires := minutes 30 in
                 let access_token := mint_access_token J now_access user scopes in
                 Cache.ret (result_success
                   (RefreshData access_token "bearer" access_token_expires
                      refresh_token (Models.user_id user) scopes))
             end
     end)%cache
    (fun _ => true)
    (fun _ => Cache.ret (result_error "Invalid refresh token" HTTP_400_BAD_REQUEST)).

(** [logout]: [cache.delete_token(current_user.user_id)] for the authorised
    caller; the result of [delete_token] is dropped. *)
Definition logout (current_user : Models.User) : Cache.M ResultModel :=
  (_ <- Cache.delete_token (Models.user_id current_user) ;;
   Cache.ret (result_success (Message "Successfully logged out")))%cache.

End Auth.

(** ** Vocabulary of the specification *)

Module Spec.

Import Cache.

(** Every entry of the token lookup has its record: the principal it names
    holds that very token, with the same expiry. *)
Definition index_sound (c : TokenCache) : Prop :=
  ∀ t i, _token_lookup c !! t = Some i →
    ∃ e, _refresh_tokens c !! user_id i = Some e
         ∧ refresh_token e = t ∧ expires_at e = lk_expires_at i.

(** Every record has its entry in the token lookup. *)
Definition records_indexed (c : TokenCache) : Prop :=
  ∀ u e, _refresh_tokens c !! u = Some e →
    _token_lookup c !! refresh_token e = Some (mkLookupEntry u (expires_at e)).

(** The two maps mirror each other. *)
Definition mirror (c : TokenCache) : Prop :=
  index_sound c ∧ records_indexed c.

(** The record of [u], if there is one, has a lookup entry: what
    [_invalidate_user_tokens u] needs in order not to raise. *)
Definition record_indexed (c : TokenCache) (u : Z) : Prop :=
  ∀ e, _refresh_tokens c !! u = Some e →
    is_Some (_token_lookup c !! refresh_token e).

(** The operations of the store, with the clock reads they perform. *)
Inductive op : Type :=
  | SetToken (now created : Z) (user_id : Z) (token : string) (expires_delta : Z)
  | GetUserIdByToken (now : Z) (token : string)
  | DeleteToken (user_id : Z)
  | CleanupExpiredTokens (now : Z).

Definition forget {A} (r : outcome A * TokenCache) : outcome unit * TokenCache :=
  (match r.1 with Ret _ => Ret tt | Raise e => Raise e end, r.2).

Definition apply_op (o : op) (c : TokenCache) : outcome unit * TokenCache :=
  match o with
  | SetToken now created u t d => set_token now created u t d c
  | GetUserIdByToken now t => forget (get_user_id_by_token now t c)
  | DeleteToken u => forget (delete_token u c)
  | CleanupExpiredTokens now => forget (cleanup_expired_tokens now c)
  end.

(** The cache after a sequence of operations. *)
Fixpoint run (ops : list op) (c : TokenCache) : TokenCache :=
  match ops with
  | [] => c
  | o :: rest => run rest (apply_op o c).2
  end.

(** No operation of the sequence raised. *)
Fixpoint all_returned (ops : list op) (c : TokenCache) : bool :=
  match ops with
  | [] => true
  | o :: rest => is_Ret (apply_op o c).1 && all_returned rest (apply_op o c).2
  end.

(** The token that [set_token] is given is not in use by another principal. *)
Definition token_free (c : TokenCache) (u : Z) (t : string) : bool :=
  match _token_lookup c !! t with
  | Some i => bool_decide (user_id i = u)
  | None => true
  end.

(** Along the sequence, every [set_token] is given a token that no other
    principal is using at that moment. *)
Fixpoint tokens_unique (ops : list op) (c : TokenCache) : bool :=
  match ops with
  | [] => true
  | o :: rest =>
      match o with
      | SetToken _ _ u t _ => token_free c u t
      | _ => true
      end && tokens_unique rest (apply_op o c).2
  end.

(** The records that have expired at [now], and those that are live. *)
Definition expired_records (now : Z) (c : TokenCache) : gmap Z RefreshEntry :=
  filter (fun kv => expires_at kv.2 < now) (_refresh_tokens c).
Definition live_records (now : Z) (c : TokenCache) : gmap Z RefreshEntry :=
  filter (fun kv => now <= expires_at kv.2) (_refresh_tokens c).

(** The same for the entries of the token lookup. *)
Definition expired_entries (now : Z) (c : TokenCache) : gmap string LookupEntry :=
  filter (fun kv => lk_expires_at kv.2 < now) (_token_lookup c).
Definition live_entries (now : Z) (c : TokenCache) : gmap string LookupEntry :=
  filter (fun kv => now <= lk_expires_at kv.2) (_token_lookup c).

(** The record [kv] has a lookup entry that names its principal and has
    expired: the records that the first loop of the sweep deletes. *)
Definition swept_by_index (now : Z) (c : TokenCache) (kv : Z * RefreshEntry) : Prop :=
  match _token_lookup c !! refresh_token kv.2 with
  | Some i => user_id i = kv.1 ∧ lk_expires_at i < now
  | None => False
  end.

#[global] Instance swept_by_index_dec now c kv : Decision (swept_by_index now c kv).
Proof. unfold swept_by_index. destruct (_token_lookup c !! _); apply _. Defined.

(** Every character of [s] satisfies [P]. *)
Fixpoint all_chars (P : ascii → bool) (s : string) : bool :=
  match s with
  | EmptyString => true
  | String a r => P a && all_chars P r
  end.

(** The characters of [str(z)]. *)
Definition sign_or_digit (a : ascii) : bool :=
  is_digit a || Ascii.eqb a "-".

(** The two error results that the specification calls [InvalidToken] and
    [InvalidCredentials]. *)
Definition invalid_refresh_token : Schemas.ResultModel :=
  Schemas.result_error "Invalid refresh token" Security.HTTP_400_BAD_REQUEST.
Definition incorrect_credentials : Schemas.ResultModel :=
  Schemas.result_error "Incorrect username or password" Security.HTTP_400_BAD_REQUEST.

End Spec.

(** ** Concrete collaborators

    A codec and a principal store given by finite tables, for evaluating the
    handlers on concrete inputs. *)

Module Scenario.

Fixpoint assoc {A} (key : string) (table : list (string * A)) : option A :=
  match table with
  | [] => None
  | (k, v) :: rest => if bool_decide (k = key) then Some v else assoc key rest
  end.

(** The tokens of [table] decode to the claims listed for them, every other
    string fails to decode; encoding yields [access] for claims without a
    [type] and [refresh] for the others. *)
Definition table_codec (access refresh : string)
    (table : list (string * Jose.Payload)) : Jose.Codec :=
  Jose.mkCodec "ModernWMS.Py" "ModernWMS.Client" 60
    (fun claims => match claims !! "type" with
                   | None => access
                   | Some _ => refresh
                   end)
    (fun token => match assoc token table with
                  | Some payload => Ret payload
                  | None => Raise JWTError
                  end).

Definition find_user (p : Models.User → bool) (users : list Models.User)
    : option Models.User :=
  List.find p users.

(** The principals of [users], all active; a password verifies when the
    stored hash is the presented string between brackets.  This is a
    database that answers; [Queries.shipped] puts the filters of the
    handlers in front of it. *)
Definition table_deps (users : list Models.User) : Security.Deps :=
  Security.mkDeps
    (fun id => Ret (find_user (fun u => bool_decide (Models.user_id u = id)) users))
    (fun name => Ret (find_user (fun u =>
        bool_decide (Models.user_name u = name)
        || bool_decide (Models.user_num u = name)) users))
    (fun text => "md5:" +:+ text)
    (fun plain hashed => Ret (bool_decide (hashed = "[" +:+ plain +:+ "]"))).

Definition alice : Models.User :=
  Models.mkUser 7 "U0007" "alice" "[md5:secret]" "admin" 1 1 None None.
Definition bob : Models.User :=
  Models.mkUser 8 "U0008" "bob" "[md5:hunter2]" "user" 2 1 None None.
Definition root : Models.User :=
  Models.mkUser 0 "U0000" "root" "[md5:toor]" "admin" 1 1 None None.

Definition deps : Security.Deps := table_deps [alice; bob; root].

(** Claims of a refresh token as [create_refresh_token] makes them. *)
Definition refresh_claims (now : Z) (user_id : Z) : Jose.Payload :=
  Security.refresh_to_encode (table_codec "" "" []) now user_id None.

(** Claims of an access token as the handlers mint them. *)
Definition access_claims (now : Z) (user : Models.User) : Jose.Payload :=
  Auth.minted_claims (table_codec "" "" []) now user
    (Auth.role_scopes (Models.user_role user)).

(** A validly signed token without subject, and one whose subject does not
    end in a number. *)
Definition no_subject : Jose.Payload :=
  {[ "iss" := JStr "ModernWMS.Py"; "exp" := JNum 4000 ]}.
Definition odd_subject : Jose.Payload :=
  {[ "sub" := JStr "user:abc"; "iss" := JStr "ModernWMS.Py"; "exp" := JNum 4000 ]}.

Definition codec : Jose.Codec :=
  table_codec "access-alice" "refresh-alice"
    [("access-alice", access_claims 100 alice);
     ("access-bob", access_claims 100 bob);
     ("access-root", access_claims 100 root);
     ("refresh-alice", refresh_claims 100 7);
     ("refresh-root", refresh_claims 100 0);
     ("no-subject", no_subject);
     ("odd-subject", odd_subject)].

End Scenario.

(** ** Role permissions: the rest of [app/security.py] *)

Module Permissions.

(** [c.lower()] and [s.lower()], on ASCII. *)
Definition lower_char (a : ascii) : ascii :=
  let n := nat_of_ascii a in
  if (65 <=? n)%nat && (n <=? 90)%nat then ascii_of_nat (n + 32) else a.

Fixpoint lower (s : string) : string :=
  match s with
  | EmptyString => EmptyString
  | String a r => String (lower_char a) (lower r)
  end.

Definition ROLE_PERMISSIONS : gmap string (list string) :=
  {[ "admin" := ["read"; "write"; "update"; "delete"; "admin"];
     "manager" := ["read"; "write"; "update"];
     "user" := ["read"] ]}.

(** [has_permission(user, required_permission)]; [user] may be [None]. *)
Definition has_permission (user : option Models.User)
    (required_permission : string) : bool :=
  match user with
  | None => false
  | Some user =>
      if bool_decide (Models.user_role user = "") then false
      else
        let user_permissions :=
          default [] (ROLE_PERMISSIONS !! lower (Models.user_role user)) in
        bool_decide (required_permission ∈ user_permissions)
  end.

(** The permissions behind [require_admin], [require_manager] and
    [require_read]. *)
Definition require_admin_permission : string := "admin".
Definition require_manager_permission : string := "write".
Definition require_read_permission : string := "read".

End Permissions.

(** ** Password utilities: [app/utils/hash.py] *)

Module Hash.

Definition SALT_LENGTH : Z := 16.
Definition HASH_ITERATIONS : Z := 100000.
Definition HASH_ALGORITHM : string := "sha256".

(** The primitives of [hashlib], [base64] and [os] that the module calls.
    [pbkdf2_b64 algorithm password salt iterations] stands for
    [base64.b64encode(hashlib.pbkdf2_hmac(algorithm, password.encode(),
    salt.encode(), iterations)).decode()]; [hashlib] raises on an algorithm
    or an iteration count it does not accept.  [fresh_salt] is the value of
    the call of [generate_salt()]. *)
Record Primitives : Type := mkPrimitives {
  md5_hexdigest : string -> string;
  pbkdf2_b64 : string -> string -> string -> Z -> outcome string;
  fresh_salt : string
}.

(** [md5_hex(text)] *)
Definition md5_hex (P : Primitives) (text : string) : string :=
  md5_hexdigest P text.

(** [hash_password(password, salt)] *)
Definition hash_password (P : Primitives) (password : string)
    (salt : option string) : outcome (string * string) :=
  let salt := match salt with None => fresh_salt P | Some salt => salt end in
  (hashed_b64 <- pbkdf2_b64 P HASH_ALGORITHM password salt HASH_ITERATIONS ;;
   Ret ("pbkdf2:" +:+ HASH_ALGORITHM +:+ ":" +:+ py_str HASH_ITERATIONS
          +:+ "$" +:+ hashed_b64, salt))%py.

(** [a, b, c = l]: unpacking raises [ValueError] unless the lengths agree. *)
Definition unpack3 {A} (l : list A) : outcome (A * A * A) :=
  match l with
  | [a; b; c] => Ret (a, b, c)
  | _ => Raise ValueError
  end.
Definition unpack2 {A} (l : list A) : outcome (A * A) :=
  match l with
  | [a; b] => Ret (a, b)
  | _ => Raise ValueError
  end.

(** [verify_password(stored_hash, provided_password, salt)] *)
Definition verify_password (P : Primitives) (stored_hash provided_password salt : string)
    : outcome bool :=
  if negb (is_substring ":" stored_hash) then
    Ret (bool_decide (md5_hex P provided_password = stored_hash))
  else
    let parsed :=
      (parts <- unpack3 (split ":" stored_hash) ;;
       let '(_, algorithm, iterations_hash) := parts in
       parts <- unpack2 (split "$" iterations_hash) ;;
       let '(iterations, stored_hash_value) := parts in
       iterations <- py_int iterations ;;
       Ret (algorithm, iterations, stored_hash_value))%py in
    match parsed with
    | Raise ValueError | Raise AttributeError => Ret false
    | Raise e => Raise e
    | Ret (algorithm, iterations, stored_hash_value) =>
        (hashed_b64 <- pbkdf2_b64 P algorithm provided_password salt iterations ;;
         Ret (bool_decide (hashed_b64 = stored_hash_value)))%py
    end.

Definition is_upper (a : ascii) : bool :=
  let n := nat_of_ascii a in (65 <=? n)%nat && (n <=? 90)%nat.
Definition is_lower (a : ascii) : bool :=
  let n := nat_of_ascii a in (97 <=? n)%nat && (n <=? 122)%nat.

(** [any(p(c) for c in s)] *)
Fixpoint any_char (p : ascii -> bool) (s : string) : bool :=
  match s with
  | EmptyString => false
  | String a r => p a || any_char p r
  end.

Definition special_characters : string := "!@#$%^&*()-_=+[]{}|;:,.<>?/`~".

(** [c in special_characters], for a character [c] *)
Definition is_special (a : ascii) : bool :=
  any_char (Ascii.eqb a) special_characters.

(** [is_strong_password(password)], on ASCII passwords *)
Definition is_strong_password (password : string) : bool * string :=
  if (String.length password <? 8)%nat then
    (false, "Password must be at least 8 characters long")
  else if negb (any_char is_upper password) then
    (false, "Password must contain at least one uppercase letter")
  else if negb (any_char is_lower password) then
    (false, "Password must contain at least one lowercase letter")
  else if negb (any_char is_digit password) then
    (false, "Password must contain at least one number")
  else if negb (any_char is_special password) then
    (false, "Password must contain at least one special character")
  else (true, "").

End Hash.

(** ** The handlers behind an access token: the rest of [app/routers/auth.py] *)

Module Account.

Import Schemas Security.

(** What [change_password] consumes besides [Deps]: [get_password_hash] of
    [app/security.py] and the commit of the changed row. *)
Record Persistence : Type := mkPersistence {
  get_password_hash : string -> outcome string;
  commit : Models.User -> outcome unit
}.

Definition with_password (user : Models.User) (password : string) : Models.User :=
  Models.mkUser (Models.user_id user) (Models.user_num user) (Models.user_name user)
    password (Models.user_role user) (Models.userrole_id user)
    (Models.tenant_id user) (Models.email user) (Models.phone user).

(** [Security(get_current_user, scopes=["user"])]: the handler runs on the
    principal that [get_current_user] returns, and does not run when it
    raises. *)
Definition authorised {A} (J : Jose.Codec) (D : Deps) (token : string)
    (handler : Models.User -> Cache.M A) : Cache.M A :=
  (current_user <- Cache.lift (get_current_user J D ["user"] token) ;;
   handler current_user)%cache.

(** The [logout] endpoint, from the bearer token on. *)
Definition logout_request (J : Jose.Codec) (D : Deps) (token : string)
    : Cache.M ResultModel :=
  authorised J D token Auth.logout.

(** [change_password(current_password, new_password, current_user, db)]; the
    second component is [current_user] as the handler leaves it. *)
Definition change_password (D : Deps) (S : Persistence)
    (current_password new_password : string) (current_user : Models.User)
    : Cache.M (ResultModel * Models.User) :=
  (ok <- Cache.lift
           (verify_password D
              (if bool_decide (String.length current_password <> 32%nat)
               then md5_hex D current_password else current_password)
              (Models.password current_user)) ;;
   if negb ok then
     Cache.ret (result_error "Current password is incorrect" HTTP_400_BAD_REQUEST,
                current_user)
   else
     hashed <- Cache.lift
                 (get_password_hash S
                    (if bool_decide (String.length new_password = 32%nat)
                     then new_password else md5_hex D new_password)) ;;
     let current_user := with_password current_user hashed in
     _ <- Cache.lift (commit S current_user) ;;
     _ <- Cache.delete_token (Models.user_id current_user) ;;
     Cache.ret (result_success (Message "Password updated successfully"),
                current_user))%cache.

End Account.

(** ** The principal queries over [app/models.py] *)

Module Queries.

Import Security.

(** What [class User(Base, BaseMixin)] declares: its mapped columns, then
    the columns of [BaseMixin]. *)
Definition User_columns : list string :=
  ["user_id"; "user_num"; "user_name"; "password"; "user_role"; "userrole_id";
   "tenant_id"; "email"; "phone"; "avatar";
   "create_time"; "last_update_time"; "is_valid"; "is_deleted"].

(** [models.User.<name>] for a class that declares [declared]: the column,
    or [AttributeError] for a name that is not declared. *)
Definition class_attribute (declared : list string) (name : string) : outcome string :=
  if bool_decide (name ∈ declared) then Ret name else Raise AttributeError.

(** The column expressions of a filter: Python evaluates the arguments of
    [.filter(...)] and [.where(...)] from left to right, before the query
    exists. *)
Fixpoint filter_columns (declared names : list string) : outcome unit :=
  match names with
  | [] => Ret tt
  | name :: rest =>
      (_ <- class_attribute declared name ;; filter_columns declared rest)%py
  end.

(** The query of [get_current_user] and of [refresh_token]:
    [models.User.id == user_id, models.User.is_active == True,
     models.User.is_deleted == False].  [D] is the database that answers a
    query once it is built. *)
Definition active_user_query (declared : list string) (D : Deps) (user_id : Z)
    : outcome (option Models.User) :=
  (_ <- filter_columns declared ["id"; "is_active"; "is_deleted"] ;;
   query_active_user D user_id)%py.

(** The query of [login]:
    [or_(models.User.user_name == username, models.User.user_num == username),
     models.User.is_active == True, models.User.is_deleted == False]. *)
Definition login_user_query (declared : list string) (D : Deps) (username : string)
    : outcome (option Models.User) :=
  (_ <- filter_columns declared ["user_name"; "user_num"; "is_active"; "is_deleted"] ;;
   query_login_user D username)%py.

(** The collaborators of the handlers over a class that declares
    [declared] and a database [D]. *)
Definition over (declared : list string) (D : Deps) : Deps :=
  mkDeps (active_user_query declared D) (login_user_query declared D)
    (md5_hex D) (verify_password D).

(** The collaborators as the repository has them. *)
Definition shipped (D : Deps) : Deps := over User_columns D.

End Queries.

(** ** Further vocabulary and concrete collaborators *)

Module Extra.

(** [sep] does not occur in [s]. *)
Definition without_char (sep : ascii) (s : string) : bool :=
  Spec.all_chars (fun a => negb (Ascii.eqb a sep)) s.

(** The scopes that [create_access_token] writes for the argument
    [scopes]: [scopes or ["user"]]. *)
Definition granted (scopes : list string) : list string :=
  match scopes with [] => ["user"] | _ => scopes end.

(** A refresh token whose subject does not end in a number. *)
Definition odd_refresh : Jose.Payload :=
  {[ "sub" := JStr "refresh:abc"; "type" := JStr "refresh";
     "iss" := JStr "ModernWMS.Py"; "exp" := JNum 4000 ]}.

Definition codec : Jose.Codec :=
  Scenario.table_codec "access-alice" "refresh-alice"
    [("access-alice", Scenario.access_claims 100 Scenario.alice);
     ("refresh-alice", Scenario.refresh_claims 100 7);
     ("refresh-odd", odd_refresh)].

(** Hashing puts the text between braces; every commit goes through. *)
Definition persistence : Account.Persistence :=
  Account.mkPersistence (fun text => Ret ("{" +:+ text +:+ "}")) (fun _ => Ret tt).

(** The same, with a database that refuses the commit. *)
Definition failing_persistence : Account.Persistence :=
  Account.mkPersistence (fun text => Ret ("{" +:+ text +:+ "}"))
    (fun _ => Raise (OtherError "OperationalError")).

(** [hashlib] primitives that accept [sha256] only and at least one
    iteration. *)
Definition primitives : Hash.Primitives :=
  Hash.mkPrimitives
    (fun text => "md5-" +:+ text)
    (fun algorithm password salt iterations =>
       if bool_decide (algorithm = "sha256") && bool_decide (1 <= iterations)
       then Ret ("b64-" +:+ password +:+ "-" +:+ salt)
       else Raise ValueError)
    "c2FsdA==".

End Extra.

(** * Properties *)

(** ** The session store *)

Section cache_facts.

Import Cache Spec.
Implicit Types (c : TokenCache) (u : Z) (t : string).

Lemma index_sound_init : index_sound init.
Proof. intros t i H. simpl in H. by rewrite lookup_empty in H. Qed.

Lemma mirror_init : mirror init.
Proof.
  split; [apply index_sound_init|].
  intros u e H. simpl in H. by rewrite lookup_empty in H.
Qed.

Lemma mirror_record_indexed c u : mirror c → record_indexed c u.
Proof. intros [_ Hr] e He. rewrite (Hr _ _ He). eauto. Qed.

(** Two index entries for the same principal are the same entry. *)
Lemma index_sound_unique c t1 t2 i1 i2 :
  index_sound c →
  _token_lookup c !! t1 = Some i1 → _token_lookup c !! t2 = Some i2 →
  user_id i1 = user_id i2 → t1 = t2.
Proof.
  intros Hs H1 H2 Hu.
  destruct (Hs _ _ H1) as (e1 & He1 & <- & _).
  destruct (Hs _ _ H2) as (e2 & He2 & <- & _).
  rewrite Hu in He1. congruence.
Qed.

(** *** [_invalidate_user_tokens] *)

Lemma invalidate_user_absent c u :
  _refresh_tokens c !! u = None → _invalidate_user_tokens u c = (Ret false, c).
Proof. unfold _invalidate_user_tokens. by intros ->. Qed.

Lemma invalidate_user_present c u e i :
  _refresh_tokens c !! u = Some e →
  _token_lookup c !! refresh_token e = Some i →
  _invalidate_user_tokens u c =
    (Ret true, mkTokenCache (delete u (_refresh_tokens c))
                            (delete (refresh_token e) (_token_lookup c))).
Proof. unfold _invalidate_user_tokens. by intros -> ->. Qed.


(** Whatever the outcome, the principal's recorded token is not indexed
    afterwards, and no record is left when the call returned. *)
Lemma invalidate_user_post c u :
  let r := _invalidate_user_tokens u c in
  (∀ e, _refresh_tokens c !! u = Some e →
        _token_lookup r.2 !! refresh_token e = None)
  ∧ (is_Ret r.1 = true → _refresh_tokens r.2 !! u = None).
Proof.
  unfold _invalidate_user_tokens.
  destruct (_refresh_tokens c !! u) as [e|] eqn:He; [|by split].
  destruct (_token_lookup c !! refresh_token e) as [i|] eqn:Hi; simpl.
  - split; [|intros _; apply lookup_delete_eq].
    intros e' [= <-]. apply lookup_delete_eq.
  - split; [|done]. by intros e' [= <-].
Qed.

Lemma invalidate_user_returns c u :
  record_indexed c u → ∃ b, (_invalidate_user_tokens u c).1 = Ret b.
Proof.
  intros Hi. unfold _invalidate_user_tokens.
  destruct (_refresh_tokens c !! u) as [e|] eqn:He; [|by eexists].
  destruct (Hi _ He) as [i ->]. by eexists.
Qed.

Lemma invalidate_user_index_sound c u :
  index_sound c → index_sound (_invalidate_user_tokens u c).2.
Proof.
  intros Hs. unfold _invalidate_user_tokens.
  destruct (_refresh_tokens c !! u) as [e|] eqn:He; [|done].
  destruct (_token_lookup c !! refresh_token e) as [i|] eqn:Hi; [|done].
  intros t j Hj; simpl in *.
  apply lookup_delete_Some in Hj as [Hne Hj].
  destruct (Hs _ _ Hj) as (e' & He' & Htok & Hexp).
  exists e'. split_and!; [|done..].
  rewrite lookup_delete_ne; [done|].
  intros Heq. rewrite <- Heq in He'. congruence.
Qed.

Lemma invalidate_user_records_indexed c u :
  records_indexed c → records_indexed (_invalidate_user_tokens u c).2.
Proof.
  intros Hr. unfold _invalidate_user_tokens.
  destruct (_refresh_tokens c !! u) as [e|] eqn:He; [|done].
  destruct (_token_lookup c !! refresh_token e) as [i|] eqn:Hi; [|done].
  intros u' e' He'; simpl in *.
  apply lookup_delete_Some in He' as [Hne He'].
  rewrite lookup_delete_ne; [by apply Hr|].
  intros Heq. pose proof (Hr _ _ He) as H1. pose proof (Hr _ _ He') as H2.
  rewrite Heq in H1. congruence.
Qed.

(** *** [_invalidate_token] *)

Lemma invalidate_token_absent c t :
  _token_lookup c !! t = None → _invalidate_token t c = (Ret false, c).
Proof. unfold _invalidate_token. by intros ->. Qed.

Lemma invalidate_token_present c t i :
  _token_lookup c !! t = Some i →
  _invalidate_token t c =
    (Ret true, mkTokenCache (delete (user_id i) (_refresh_tokens c))
                            (delete t (_token_lookup c))).
Proof.
  unfold _invalidate_token. intros ->.
  destruct (_refresh_tokens c !! user_id i) eqn:He; [done|].
  by rewrite (delete_id _ _ He).
Qed.

(** Case split on whether [t] has a lookup entry, rewriting
    [_invalidate_token t c] accordingly. *)
Ltac invalidate_token_cases c t i Hi :=
  destruct (_token_lookup c !! t) as [i|] eqn:Hi;
  [rewrite (invalidate_token_present _ _ _ Hi)
  |rewrite (invalidate_token_absent _ _ Hi)].

Lemma invalidate_token_returns c t : ∃ b, (_invalidate_token t c).1 = Ret b.
Proof. invalidate_token_cases c t i Hi; by eexists. Qed.

Lemma invalidate_token_lookup c t t' :
  _token_lookup (_invalidate_token t c).2 !! t' =
    if decide (t = t') then None else _token_lookup c !! t'.
Proof.
  invalidate_token_cases c t i Hi.
  - apply lookup_delete.
  - simpl. case_decide; [by subst|done].
Qed.

Lemma invalidate_token_refresh_sub c t u e :
  _refresh_tokens (_invalidate_token t c).2 !! u = Some e →
  _refresh_tokens c !! u = Some e.
Proof.
  invalidate_token_cases c t i Hi; [|done].
  simpl. by intros [_ ?]%lookup_delete_Some.
Qed.

Lemma invalidate_token_index_sound c t :
  index_sound c → index_sound (_invalidate_token t c).2.
Proof.
  intros Hs. invalidate_token_cases c t i Hi; [|done].
  intros t' j Hj; simpl in *.
  apply lookup_delete_Some in Hj as [Hne Hj].
  destruct (Hs _ _ Hj) as (e' & He' & Htok & Hexp).
  exists e'. split_and!; [|done..].
  rewrite lookup_delete_ne; [done|].
  intros Heq. apply Hne. by eapply index_sound_unique.
Qed.

Lemma invalidate_token_records_indexed c t :
  records_indexed c → records_indexed (_invalidate_token t c).2.
Proof.
  intros Hr. invalidate_token_cases c t i Hi; [|done].
  intros u e He; simpl in *.
  apply lookup_delete_Some in He as [Hne He].
  rewrite lookup_delete_ne; [by apply Hr|].
  intros Heq. pose proof (Hr _ _ He) as Hl. rewrite <- Heq in Hl.
  rewrite Hl in Hi. by simplify_eq.
Qed.

(** *** [set_token] *)

Lemma set_token_returns now created u t d c :
  record_indexed c u →
  set_token now created u t d c =
    (Ret tt,
     let c1 := (_invalidate_user_tokens u c).2 in
     mkTokenCache
       (<[u := mkRefreshEntry t (now + d) created]> (_refresh_tokens c1))
       (<[t := mkLookupEntry u (now + d)]> (_token_lookup c1))).
Proof.
  intros Hi. unfold set_token.
  destruct (invalidate_user_returns _ _ Hi) as [b Hb].
  destruct (_invalidate_user_tokens u c) as [r c1]. simpl in *. by subst r.
Qed.

Lemma set_token_raises now created u t d c :
  ¬ record_indexed c u →
  set_token now created u t d c = (Raise KeyError, c).
Proof.
  intros Hn. unfold set_token, _invalidate_user_tokens.
  destruct (_refresh_tokens c !! u) as [e|] eqn:He.
  - destruct (_token_lookup c !! refresh_token e) eqn:Hl; [|done].
    exfalso. apply Hn. intros e' He'. simplify_eq. eauto.
  - exfalso. apply Hn. intros e' He'. congruence.
Qed.

Lemma set_token_index_sound now created u t d c :
  index_sound c → index_sound (set_token now created u t d c).2.
Proof.
  intros Hs. unfold set_token.
  pose proof (invalidate_user_index_sound _ u Hs) as Hs1.
  pose proof (invalidate_user_post c u) as [_ Hnone].
  destruct (_invalidate_user_tokens u c) as [[b|x] c1]; simpl in *; [|done].
  specialize (Hnone eq_refl).
  intros t' j Hj. simpl in Hj.
  apply lookup_insert_Some in Hj as [[<- <-]|[Hne Hj]]; simpl.
  - eexists. rewrite lookup_insert_eq. done.
  - destruct (Hs1 _ _ Hj) as (e' & He' & Htok & Hexp).
    exists e'. split_and!; [|done..].
    rewrite lookup_insert_ne; [done|]. intros Heq. congruence.
Qed.

Lemma invalidate_user_lookup_sub c u t i :
  _token_lookup (_invalidate_user_tokens u c).2 !! t = Some i →
  _token_lookup c !! t = Some i.
Proof.
  unfold _invalidate_user_tokens.
  destruct (_refresh_tokens c !! u) as [e|]; [|done].
  destruct (_token_lookup c !! refresh_token e); [|done].
  simpl. by intros [_ ?]%lookup_delete_Some.
Qed.

Lemma set_token_records_indexed now created u t d c :
  token_free c u t = true →
  records_indexed c → records_indexed (set_token now created u t d c).2.
Proof.
  intros Hfree Hr. unfold set_token.
  pose proof (invalidate_user_records_indexed _ u Hr) as Hr1.
  pose proof (invalidate_user_lookup_sub c u t) as Hsub.
  destruct (_invalidate_user_tokens u c) as [[b|x] c1]; simpl in *; [|done].
  intros u' e' He'. simpl in He'.
  apply lookup_insert_Some in He' as [[<- <-]|[Hne He']]; simpl.
  - by rewrite lookup_insert_eq.
  - rewrite lookup_insert_ne; [by apply Hr1|].
    intros Heq. pose proof (Hr1 _ _ He') as Hl. rewrite <- Heq in Hl.
    apply Hsub in Hl. unfold token_free in Hfree. rewrite Hl in Hfree.
    apply bool_decide_eq_true in Hfree. simpl in Hfree. congruence.
Qed.

(** *** [get_user_id_by_token] *)

Lemma get_user_absent now t c :
  _token_lookup c !! t = None → get_user_id_by_token now t c = (Ret None, c).
Proof. unfold get_user_id_by_token. by intros ->. Qed.

Lemma get_user_live now t c i :
  _token_lookup c !! t = Some i → now <= lk_expires_at i →
  get_user_id_by_token now t c = (Ret (Some (user_id i)), c).
Proof.
  unfold get_user_id_by_token. intros -> Hlive.
  destruct (Z.ltb_spec (lk_expires_at i) now); [lia|done].
Qed.

Lemma get_user_expired now t c i :
  _token_lookup c !! t = Some i → lk_expires_at i < now →
  get_user_id_by_token now t c =
    (Ret None, mkTokenCache (delete (user_id i) (_refresh_tokens c))
                            (delete t (_token_lookup c))).
Proof.
  unfold get_user_id_by_token. intros Hi Hexp. rewrite Hi.
  destruct (Z.ltb_spec (lk_expires_at i) now); [|lia].
  by rewrite (invalidate_token_present _ _ _ Hi).
Qed.

(** The cache after a lookup is the cache before it, or that cache with the
    looked-up token invalidated. *)
Lemma get_user_state now t c :
  (get_user_id_by_token now t c).2 = c
  ∨ (get_user_id_by_token now t c).2 = (_invalidate_token t c).2.
Proof.
  unfold get_user_id_by_token.
  destruct (_token_lookup c !! t) as [i|]; [|by left].
  destruct (lk_expires_at i <? now); [|by left].
  right. by destruct (_invalidate_token t c) as [[]].
Qed.

Lemma get_user_returns now t c : ∃ r, (get_user_id_by_token now t c).1 = Ret r.
Proof.
  unfold get_user_id_by_token.
  destruct (_token_lookup c !! t) as [i|] eqn:Hi; [|by eexists].
  destruct (lk_expires_at i <? now); [|by eexists].
  rewrite (invalidate_token_present _ _ _ Hi). by eexists.
Qed.

(** *** Counting in a mirrored cache *)

Lemma mirror_size_aux (r : gmap Z RefreshEntry) :
  ∀ l : gmap string LookupEntry, mirror (mkTokenCache r l) → size l = size r.
Proof.
  induction r as [|u e r Hnone IH] using map_ind; intros l [Hs Hr].
  - rewrite map_size_empty. apply map_size_empty_iff, map_empty.
    intros t. destruct (l !! t) as [i|] eqn:Hi; [|done].
    destruct (Hs _ _ Hi) as (e & He & _). simpl in He.
    by rewrite lookup_empty in He.
  - pose proof (Hr u e) as Hl. simpl in Hl. rewrite lookup_insert_eq in Hl.
    specialize (Hl eq_refl).
    rewrite map_size_insert_None by done.
    rewrite <- (IH (delete (refresh_token e) l)).
    + rewrite map_size_delete_Some; [|by eauto].
      assert (size l ≠ 0%nat); [|lia].
      intros Hz%map_size_empty_iff. subst l. by rewrite lookup_empty in Hl.
    + split.
      * intros t i Hi. simpl in *.
        apply lookup_delete_Some in Hi as [Hne Hi].
        destruct (Hs _ _ Hi) as (e' & He' & Htok & Hexp). simpl in He'.
        apply lookup_insert_Some in He' as [[Hu <-]|[Hu He']]; [congruence|].
        eauto.
      * intros u' e' He'. simpl in *.
        assert (u ≠ u') as Hne by (intros <-; congruence).
        pose proof (Hr u' e') as Hl'. simpl in Hl'.
        rewrite lookup_insert_ne in Hl' by done. specialize (Hl' He').
        rewrite lookup_delete_ne; [done|].
        intros Heq. rewrite Heq in Hl. congruence.
Qed.

Lemma mirror_size c :
  mirror c → size (_token_lookup c) = size (_refresh_tokens c).
Proof. destruct c as [r l]. apply mirror_size_aux. Qed.

Lemma mirror_expired_part now c :
  mirror c → mirror (mkTokenCache (expired_records now c) (expired_entries now c)).
Proof.
  intros [Hs Hr]. split.
  - intros t i [Hi Hexp]%map_lookup_filter_Some. simpl in *.
    destruct (Hs _ _ Hi) as (e & He & Htok & Hex).
    exists e. split_and!; [|done..].
    apply map_lookup_filter_Some. split; [done|]. simpl. lia.
  - intros u e [He Hexp]%map_lookup_filter_Some. simpl in *.
    apply map_lookup_filter_Some. split; [by apply Hr|done].
Qed.

Lemma mirror_live_part now c :
  mirror c → mirror (mkTokenCache (live_records now c) (live_entries now c)).
Proof.
  intros [Hs Hr]. split.
  - intros t i [Hi Hexp]%map_lookup_filter_Some. simpl in *.
    destruct (Hs _ _ Hi) as (e & He & Htok & Hex).
    exists e. split_and!; [|done..].
    apply map_lookup_filter_Some. split; [done|]. simpl. lia.
  - intros u e [He Hexp]%map_lookup_filter_Some. simpl in *.
    apply map_lookup_filter_Some. split; [by apply Hr|done].
Qed.

(** *** [cleanup_expired_tokens] *)

Lemma tokens_loop_returns L removed c :
  (cleanup_tokens_loop L removed c).1 = Ret (removed + Z.of_nat (length L)).
Proof.
  revert removed c. induction L as [|t L IH]; intros removed c; simpl.
  - f_equal. lia.
  - destruct (invalidate_token_returns c t) as [b Hb].
    destruct (_invalidate_token t c) as [r c1]. simpl in Hb. subst r.
    rewrite IH. f_equal. lia.
Qed.

(** An invariant of the cache that [_invalidate_token] preserves is
    preserved by the first loop. *)
Lemma tokens_loop_preserves (I : TokenCache → Prop) L removed c :
  (∀ c t, I c → I (_invalidate_token t c).2) →
  I c → I (cleanup_tokens_loop L removed c).2.
Proof.
  intros Hstep. revert removed c.
  induction L as [|t L IH]; intros removed c Hc; simpl; [done|].
  specialize (Hstep c t Hc).
  destruct (_invalidate_token t c) as [[b|x] c1]; simpl in *; [|done].
  by apply IH.
Qed.

Lemma tokens_loop_lookup L removed c t :
  _token_lookup (cleanup_tokens_loop L removed c).2 !! t =
    if decide (t ∈ L) then None else _token_lookup c !! t.
Proof.
  revert removed c. induction L as [|t0 L IH]; intros removed c; simpl.
  - done.
  - pose proof (invalidate_token_lookup c t0 t) as Hl.
    destruct (invalidate_token_returns c t0) as [b Hb].
    destruct (_invalidate_token t0 c) as [r c1]. simpl in *. subst r.
    rewrite IH, Hl.
    destruct (decide (t ∈ L)) as [Hin|Hin].
    + rewrite decide_True; [done|]. by right.
    + destruct (decide (t0 = t)) as [->|Hne].
      * rewrite decide_True; [done|]. by left.
      * rewrite decide_False; [done|].
        intros [?|?]%elem_of_cons; congruence.
Qed.

Lemma tokens_loop_refresh_sub L removed c u e :
  _refresh_tokens (cleanup_tokens_loop L removed c).2 !! u = Some e →
  _refresh_tokens c !! u = Some e.
Proof.
  revert removed c. induction L as [|t L IH]; intros removed c; simpl; [done|].
  pose proof (invalidate_token_refresh_sub c t u e) as Hsub.
  destruct (_invalidate_token t c) as [[b|x] c1]; simpl in *; [|done].
  intros H. eauto.
Qed.

Lemma users_loop_spec L removed c :
  NoDup L → (∀ u, u ∈ L → is_Some (_refresh_tokens c !! u)) →
  ∃ c', cleanup_users_loop L removed c = (Ret (removed + Z.of_nat (length L)), c')
    ∧ _token_lookup c' = _token_lookup c
    ∧ ∀ u, _refresh_tokens c' !! u =
           if decide (u ∈ L) then None else _refresh_tokens c !! u.
Proof.
  revert removed c. induction L as [|u0 L IH]; intros removed c Hnd Hin; simpl.
  - exists c. split_and!; [do 2 f_equal; lia|done|done].
  - apply NoDup_cons in Hnd as [Hu0 Hnd].
    destruct (Hin u0) as [e0 He0]; [by left|]. rewrite He0.
    destruct (IH (removed + 1)
                (mkTokenCache (delete u0 (_refresh_tokens c)) (_token_lookup c)) Hnd)
      as (c' & Hrun & Hlk & Hrf).
    { intros u Hu. simpl. apply lookup_delete_is_Some. split.
      - intros ->. done.
      - apply Hin. by right. }
    exists c'. rewrite Hrun. split_and!; [do 2 f_equal; lia|done|].
    intros u. rewrite Hrf. simpl. rewrite lookup_delete.
    destruct (decide (u ∈ L)) as [HuL|HuL].
    + rewrite decide_True; [done|]. by right.
    + destruct (decide (u0 = u)) as [->|Hne].
      * rewrite decide_True; [done|]. by left.
      * rewrite decide_False; [done|].
        intros [?|?]%elem_of_cons; congruence.
Qed.

(** The keys of the items that satisfy a condition. *)
Lemma elem_of_filtered_keys `{Countable K} {V} (P : K * V → Prop)
    `{!∀ kv, Decision (P kv)} (m : gmap K V) (k : K) :
  k ∈ (filter P (map_to_list m)).*1 ↔ ∃ v, m !! k = Some v ∧ P (k, v).
Proof.
  rewrite list_elem_of_fmap. split.
  - intros ([k' v] & -> & [HP Hin]%list_elem_of_filter).
    apply elem_of_map_to_list in Hin. eauto.
  - intros (v & Hv & HP). exists (k, v). split; [done|].
    apply list_elem_of_filter. split; [done|]. by apply elem_of_map_to_list.
Qed.

Lemma NoDup_filtered_keys `{Countable K} {V} (P : K * V → Prop)
    `{!∀ kv, Decision (P kv)} (m : gmap K V) :
  NoDup (filter P (map_to_list m)).*1.
Proof.
  apply NoDup_fmap_fst.
  - intros k v1 v2 [_ H1]%list_elem_of_filter [_ H2]%list_elem_of_filter.
    apply elem_of_map_to_list in H1, H2. congruence.
  - apply NoDup_filter, NoDup_map_to_list.
Qed.

Lemma length_filtered_keys `{Countable K} {V} (P : K * V → Prop)
    `{!∀ kv, Decision (P kv)} (m : gmap K V) :
  length (filter P (map_to_list m)).*1 = size (filter P m).
Proof.
  rewrite map_filter_alt, map_size_list_to_map, length_fmap; [done|].
  apply NoDup_filtered_keys.
Qed.

(** What one sweep does, in any cache: the lookup keeps its live entries,
    the records that survive the first loop keep the live ones among
    them, and the count is the number of expired lookup entries plus the
    number of expired records that the first loop left behind. *)
Lemma cleanup_spec now c :
  ∃ c1 c',
    cleanup_tokens_loop
      (filter (fun kv => lk_expires_at kv.2 < now) (map_to_list (_token_lookup c))).*1
      0 c = (Ret (Z.of_nat (size (expired_entries now c))), c1)
    ∧ cleanup_expired_tokens now c =
          (Ret (Z.of_nat (size (expired_entries now c)
                          + size (expired_records now c1))), c')
    ∧ _token_lookup c1 = live_entries now c
    ∧ _token_lookup c' = live_entries now c
    ∧ _refresh_tokens c' = live_records now c1.
Proof.
  unfold cleanup_expired_tokens.
  set (L := (filter _ (map_to_list (_token_lookup c))).*1).
  pose proof (tokens_loop_returns L 0 c) as Hret.
  assert (Hlk1 : _token_lookup (cleanup_tokens_loop L 0 c).2 = live_entries now c).
  { apply map_eq. intros t. rewrite tokens_loop_lookup. unfold live_entries.
    destruct (decide (t ∈ L)) as [Hin|Hin].
    - apply elem_of_filtered_keys in Hin as (i & Hi & Hexp).
      symmetry. apply map_lookup_filter_None. right.
      intros i' Hi'. simpl in *. assert (i' = i) by congruence. subst. lia.
    - destruct (_token_lookup c !! t) as [i|] eqn:Hi.
      + symmetry. apply map_lookup_filter_Some. split; [done|]. simpl.
        destruct (decide (lk_expires_at i < now)) as [Hexp|]; [|lia].
        exfalso. apply Hin. apply elem_of_filtered_keys. eauto.
      + symmetry. apply map_lookup_filter_None. by left. }
  assert (HlenL : length L = size (expired_entries now c)).
  { apply length_filtered_keys. }
  destruct (cleanup_tokens_loop L 0 c) as [r c1] eqn:Hloop.
  simpl in *. subst r.
  set (L2 := (filter _ (map_to_list (_refresh_tokens c1))).*1).
  destruct (users_loop_spec L2 (0 + Z.of_nat (length L)) c1) as (c' & Hrun & Hlk & Hrf).
  { apply NoDup_filtered_keys. }
  { intros u Hu. apply elem_of_filtered_keys in Hu as (e & -> & _). eauto. }
  exists c1, c'. rewrite Hrun. split_and!.
  - do 2 f_equal. lia.
  - do 2 f_equal. rewrite <- HlenL. unfold expired_records.
    rewrite <- length_filtered_keys. fold L2. lia.
  - done.
  - by rewrite Hlk.
  - apply map_eq. intros u. rewrite Hrf. unfold live_records.
    destruct (decide (u ∈ L2)) as [Hin|Hin].
    + apply elem_of_filtered_keys in Hin as (e & He & Hexp).
      symmetry. apply map_lookup_filter_None. right.
      intros e' He'. simpl in *. assert (e' = e) by congruence. subst. lia.
    + destruct (_refresh_tokens c1 !! u) as [e|] eqn:He.
      * symmetry. apply map_lookup_filter_Some. split; [done|]. simpl.
        destruct (decide (expires_at e < now)) as [Hexp|]; [|lia].
        exfalso. apply Hin. apply elem_of_filtered_keys. eauto.
      * symmetry. apply map_lookup_filter_None. by left.
Qed.

(** The records that the first loop leaves: those that no token of the
    list resolves to. *)
Lemma tokens_loop_refresh L removed c u e :
  _refresh_tokens (cleanup_tokens_loop L removed c).2 !! u = Some e ↔
  _refresh_tokens c !! u = Some e
  ∧ ∀ t i, t ∈ L → _token_lookup c !! t = Some i → user_id i ≠ u.
Proof.
  revert removed c. induction L as [|t0 L IH]; intros removed c; simpl.
  - split; [|by intros [? _]]. intros H. split; [done|].
    intros t i Ht. by apply not_elem_of_nil in Ht.
  - destruct (_token_lookup c !! t0) as [i0|] eqn:Hi0.
    + rewrite (invalidate_token_present _ _ _ Hi0). rewrite IH. simpl. split.
      * intros [[Hne He]%lookup_delete_Some Hrest]. split; [done|].
        intros t i [->|Ht]%elem_of_cons Hi; [congruence|].
        destruct (decide (t0 = t)) as [->|Hnet]; [congruence|].
        apply (Hrest t i Ht). by rewrite lookup_delete_ne.
      * intros [He Hall]. split.
        -- apply lookup_delete_Some. split; [|done].
           apply (Hall t0 i0); [by left|done].
        -- intros t i Ht [_ Hi]%lookup_delete_Some.
           apply (Hall t i); [by right|done].
    + rewrite (invalidate_token_absent _ _ Hi0). rewrite IH. split.
      * intros [He Hrest]. split; [done|].
        intros t i [->|Ht]%elem_of_cons Hi; [congruence|]. by apply (Hrest t i).
      * intros [He Hall]. split; [done|].
        intros t i Ht Hi. apply (Hall t i); [by right|done].
Qed.

Lemma swept_by_index_expired now c u e :
  index_sound c → _refresh_tokens c !! u = Some e →
  swept_by_index now c (u, e) → expires_at e < now.
Proof.
  intros Hs He. unfold swept_by_index. simpl.
  destruct (_token_lookup c !! refresh_token e) as [i|] eqn:Hi; [|done].
  intros [Hu Hexp]. destruct (Hs _ _ Hi) as (e' & He' & _ & Hex).
  rewrite Hu in He'. assert (e' = e) by congruence. subst. lia.
Qed.

(** In a cache whose lookup is sound, the first loop of the sweep deletes
    the records that an expired lookup entry names, and no other. *)
Lemma first_loop_records now c :
  index_sound c →
  _refresh_tokens
    (cleanup_tokens_loop
       (filter (fun kv => lk_expires_at kv.2 < now) (map_to_list (_token_lookup c))).*1
       0 c).2
  = filter (fun kv => ¬ swept_by_index now c kv) (_refresh_tokens c).
Proof.
  intros Hs. apply map_eq. intros u. apply option_eq. intros e.
  rewrite tokens_loop_refresh, map_lookup_filter_Some.
  split; intros [He H]; (split; [done|]).
  - unfold swept_by_index. simpl.
    destruct (_token_lookup c !! refresh_token e) as [i|] eqn:Hi; [|tauto].
    intros [Hu Hexp]. apply (H (refresh_token e) i); [|done..].
    apply elem_of_filtered_keys. eauto.
  - intros t i Ht Hi Hu.
    apply elem_of_filtered_keys in Ht as (i' & Hi' & Hexp). simpl in Hexp.
    assert (i' = i) by congruence. subst i'.
    destruct (Hs _ _ Hi) as (e' & He' & Htok & _).
    rewrite Hu in He'. assert (e' = e) by congruence. subst e'.
    apply H. unfold swept_by_index. simpl. by rewrite Htok, Hi.
Qed.

Lemma swept_part_mirror now c :
  index_sound c →
  mirror (mkTokenCache (filter (swept_by_index now c) (_refresh_tokens c))
                       (expired_entries now c)).
Proof.
  intros Hs. split.
  - intros t i [Hi Hexp]%map_lookup_filter_Some. simpl in *.
    destruct (Hs _ _ Hi) as (e & He & Htok & Hex).
    exists e. split_and!; [|done..].
    apply map_lookup_filter_Some. split; [done|].
    unfold swept_by_index. simpl. by rewrite Htok, Hi.
  - intros u e [He Hsw]%map_lookup_filter_Some. simpl in *.
    unfold swept_by_index in Hsw. simpl in Hsw.
    destruct (_token_lookup c !! refresh_token e) as [i|] eqn:Hi; [|done].
    destruct Hsw as [Hu Hexp].
    destruct (Hs _ _ Hi) as (e' & He' & _ & Hex).
    rewrite Hu in He'. assert (e' = e) by congruence. subst e'.
    unfold expired_entries. apply map_lookup_filter_Some. split; [|simpl; lia].
    rewrite Hi. f_equal. destruct i as [ui xi]. simpl in *. by subst.
Qed.

(** One sweep of a cache whose lookup is sound: the count is the number of
    expired records, and both maps keep exactly what is live. *)
Lemma cleanup_sound_spec now c :
  index_sound c →
  ∃ c', cleanup_expired_tokens now c
        = (Ret (Z.of_nat (size (expired_records now c))), c')
    ∧ _refresh_tokens c' = live_records now c
    ∧ _token_lookup c' = live_entries now c.
Proof.
  intros Hs.
  destruct (cleanup_spec now c) as (c1 & c' & Hloop & Hrun & Hlk1 & Hlk & Hrf).
  pose proof (first_loop_records now c Hs) as Hrf1.
  rewrite Hloop in Hrf1. simpl in Hrf1.
  set (R := _refresh_tokens c) in *.
  set (E := filter (fun kv : Z * RefreshEntry => expires_at kv.2 < now) R).
  assert (Hswept : filter (swept_by_index now c) E = filter (swept_by_index now c) R).
  { apply map_filter_strong_ext_1. intros u e. split.
    - intros [Hsw [He _]%map_lookup_filter_Some]. done.
    - intros [Hsw He]. split; [done|].
      apply map_lookup_filter_Some. split; [done|]. simpl.
      by eapply swept_by_index_expired. }
  assert (Hrest : filter (fun kv => ¬ swept_by_index now c kv) E
                  = expired_records now c1).
  { unfold expired_records. rewrite Hrf1. apply map_filter_comm. }
  assert (Hsize : size E
                  = (size (expired_entries now c) + size (expired_records now c1))%nat).
  { rewrite <- (map_filter_union_complement (swept_by_index now c) E).
    rewrite map_size_disj_union by apply map_disjoint_filter_complement.
    rewrite Hswept, Hrest. f_equal.
    symmetry. apply (mirror_size _ (swept_part_mirror now c Hs)). }
  exists c'. split_and!.
  - rewrite Hrun. unfold expired_records at 2. fold R E. by rewrite Hsize.
  - rewrite Hrf. unfold live_records. rewrite Hrf1. fold R.
    apply map_filter_strong_ext_1. intros u e. split.
    + intros [Hl [He _]%map_lookup_filter_Some]. done.
    + intros [Hl He]. split; [done|].
      apply map_lookup_filter_Some. split; [done|]. simpl in *.
      intros Hsw. pose proof (swept_by_index_expired now c u e Hs He Hsw). lia.
  - done.
Qed.

Lemma cleanup_index_sound now c :
  index_sound c → index_sound (cleanup_expired_tokens now c).2.
Proof.
  intros Hs.
  destruct (cleanup_spec now c) as (c1 & c' & Hloop & -> & Hlk1 & Hlk & Hrf).
  assert (Hs1 : index_sound c1).
  { change c1 with (Ret (Z.of_nat (size (expired_entries now c))), c1).2.
    rewrite <- Hloop.
    apply (tokens_loop_preserves index_sound); [|done].
    intros. by apply invalidate_token_index_sound. }
  intros t i Hi. simpl in *. rewrite Hlk in Hi.
  pose proof Hi as [_ Hlive]%map_lookup_filter_Some. simpl in Hlive.
  rewrite <- Hlk1 in Hi.
  destruct (Hs1 _ _ Hi) as (e & He & Htok & Hexp).
  exists e. split_and!; [|done..].
  rewrite Hrf. apply map_lookup_filter_Some. split; [done|]. simpl. lia.
Qed.

Lemma cleanup_records_indexed now c :
  records_indexed c → records_indexed (cleanup_expired_tokens now c).2.
Proof.
  intros Hr.
  destruct (cleanup_spec now c) as (c1 & c' & Hloop & -> & Hlk1 & Hlk & Hrf).
  assert (Hr1 : records_indexed c1).
  { change c1 with (Ret (Z.of_nat (size (expired_entries now c))), c1).2.
    rewrite <- Hloop.
    apply (tokens_loop_preserves records_indexed); [|done].
    intros. by apply invalidate_token_records_indexed. }
  intros u e He. simpl in *. rewrite Hrf in He.
  apply map_lookup_filter_Some in He as [He _].
  rewrite Hlk, <- Hlk1. by apply Hr1.
Qed.

Lemma cleanup_returns now c : ∃ n, (cleanup_expired_tokens now c).1 = Ret n.
Proof.
  destruct (cleanup_spec now c) as (c1 & c' & _ & -> & _). by eexists.
Qed.

(** *** Sequences of operations *)

Create HintDb store discriminated.
#[local] Hint Resolve
  set_token_index_sound invalidate_token_index_sound
  invalidate_user_index_sound cleanup_index_sound
  set_token_records_indexed invalidate_token_records_indexed
  invalidate_user_records_indexed cleanup_records_indexed : store.

Lemma apply_op_index_sound o c : index_sound c → index_sound (apply_op o c).2.
Proof.
  intros Hs. destruct o as [now created u t d|now t|u|now]; simpl;
    [|destruct (get_user_state now t c) as [-> | ->]|..]; auto with store.
Qed.

Lemma apply_op_records_indexed o c :
  match o with SetToken _ _ u t _ => token_free c u t | _ => true end = true →
  records_indexed c → records_indexed (apply_op o c).2.
Proof.
  intros Hfree Hr. destruct o as [now created u t d|now t|u|now]; simpl;
    [|destruct (get_user_state now t c) as [-> | ->]|..]; auto with store.
Qed.

Lemma apply_op_returns o c : mirror c → is_Ret (apply_op o c).1 = true.
Proof.
  intros Hm. destruct o as [now created u t d|now t|u|now]; simpl.
  - rewrite set_token_returns; [done|]. by apply mirror_record_indexed.
  - by destruct (get_user_returns now t c) as [r ->].
  - destruct (invalidate_user_returns c u) as [b Hb];
      [by apply mirror_record_indexed|].
    unfold delete_token. by rewrite Hb.
  - by destruct (cleanup_returns now c) as [n ->].
Qed.

Lemma run_index_sound ops c : index_sound c → index_sound (run ops c).
Proof.
  revert c. induction ops as [|o ops IH]; intros c Hs; simpl; [done|].
  by apply IH, apply_op_index_sound.
Qed.

Lemma run_mirror ops c :
  tokens_unique ops c = true → mirror c →
  mirror (run ops c) ∧ all_returned ops c = true.
Proof.
  revert c. induction ops as [|o ops IH]; intros c Hu Hm; simpl; [done|].
  simpl in Hu. apply andb_true_iff in Hu as [Hfree Hu].
  assert (Hm' : mirror (apply_op o c).2).
  { destruct Hm as [Hs Hr]. split.
    - by apply apply_op_index_sound.
    - by apply apply_op_records_indexed. }
  destruct (IH _ Hu Hm') as [Hfinal Hall].
  split; [done|]. by rewrite apply_op_returns, Hall.
Qed.

End cache_facts.

(** ** The claims about the session store *)

Section store_claims.

Import Cache Spec.

(** C2.  Supersession: after [set_token P t1] followed by
    [set_token P t2], both having returned, with [t1 <> t2], looking up
    [t1] yields [None] at every instant, and looking up [t2] no later than
    its expiry (at the instant of the second call, say, for a non-negative
    ttl) yields [P]; the cache holds one record for [P], the one of [t2];
    and where every lookup entry had its record before, the only lookup
    entry that names [P] is the entry of [t2].  Nothing is assumed of the
    cache before the first call but that the call returned. *)
Theorem supersession now1 created1 now2 created2 now3 now4 P t1 t2 ttl1 ttl2 c c1 c2 :
  set_token now1 created1 P t1 ttl1 c = (Ret tt, c1) →
  set_token now2 created2 P t2 ttl2 c1 = (Ret tt, c2) →
  t1 ≠ t2 → now3 <= now2 + ttl2 →
  get_user_id_by_token now4 t1 c2 = (Ret None, c2)
  ∧ get_user_id_by_token now3 t2 c2 = (Ret (Some P), c2)
  ∧ _refresh_tokens c2 !! P = Some (mkRefreshEntry t2 (now2 + ttl2) created2)
  ∧ (index_sound c →
     ∀ t i, _token_lookup c2 !! t = Some i → user_id i = P → t = t2).
Proof.
  intros H1 H2 Hne Hlive.
  assert (Hc1 : c1 = (set_token now1 created1 P t1 ttl1 c).2) by (by rewrite H1).
  assert (Hc2 : c2 = (set_token now2 created2 P t2 ttl2 c1).2) by (by rewrite H2).
  assert (Hrec1 : _refresh_tokens c1 !! P = Some (mkRefreshEntry t1 (now1 + ttl1) created1)).
  { revert H1. unfold set_token.
    destruct (_invalidate_user_tokens P c) as [[b|e] c0]; [|done].
    intros [= <-]. simpl. apply lookup_insert_eq. }
  assert (Hlk1 : _token_lookup c1 !! t1 = Some (mkLookupEntry P (now1 + ttl1))).
  { revert H1. unfold set_token.
    destruct (_invalidate_user_tokens P c) as [[b|e] c0]; [|done].
    intros [= <-]. simpl. apply lookup_insert_eq. }
  assert (Hshape : c2 = mkTokenCache
            (<[P := mkRefreshEntry t2 (now2 + ttl2) created2]>
               (delete P (_refresh_tokens c1)))
            (<[t2 := mkLookupEntry P (now2 + ttl2)]>
               (delete t1 (_token_lookup c1)))).
  { rewrite Hc2. unfold set_token.
    by rewrite (invalidate_user_present _ _ _ _ Hrec1 Hlk1). }
  assert (Hrec2 : _refresh_tokens c2 !! P = Some (mkRefreshEntry t2 (now2 + ttl2) created2)).
  { rewrite Hshape. simpl. apply lookup_insert_eq. }
  assert (Hlk2 : _token_lookup c2 !! t2 = Some (mkLookupEntry P (now2 + ttl2))).
  { rewrite Hshape. simpl. apply lookup_insert_eq. }
  assert (Hgone : _token_lookup c2 !! t1 = None).
  { rewrite Hshape. simpl. rewrite lookup_insert_ne by done. apply lookup_delete_eq. }
  split_and!.
  - by apply get_user_absent.
  - by rewrite (get_user_live _ _ _ _ Hlk2).
  - done.
  - intros Hs t i Hi Hu.
    assert (Hs2 : index_sound c2).
    { rewrite Hc2. apply set_token_index_sound.
      rewrite Hc1. by apply set_token_index_sound. }
    eapply (index_sound_unique c2); [done|exact Hi|exact Hlk2|done].
Qed.

Lemma supersession_witness :
  let c1 := (set_token 0 0 7 "first" 60 init).2 in
  let c2 := (set_token 1 1 7 "second" 60 c1).2 in
  get_user_id_by_token 500 "first" c2 = (Ret None, c2)
  ∧ get_user_id_by_token 1 "second" c2 = (Ret (Some 7), c2)
  ∧ _refresh_tokens c2 !! 7 = Some (mkRefreshEntry "second" (1 + 60) 1)
  ∧ ∀ t i, _token_lookup c2 !! t = Some i → user_id i = 7 → t = "second".
Proof.
  intros c1 c2.
  destruct (supersession 0 0 1 1 1 500 7 "first" "second" 60 60 init c1 c2)
    as (Hfirst & Hsecond & Hrecord & Honly);
    [reflexivity|reflexivity|discriminate|lia|].
  split_and!; [exact Hfirst|exact Hsecond|exact Hrecord|].
  exact (Honly index_sound_init).
Defined.

(** Once two principals were given the same token, a principal can be left
    with a record that has no lookup entry; [delete_token] and [set_token]
    then raise for that principal. *)
Example orphan_record_raises :
  let c := run [SetToken 0 0 1 "tok" 60; SetToken 0 0 2 "tok" 60; DeleteToken 1] init in
  (delete_token 2 c).1 = Raise KeyError
  ∧ (set_token 1 1 2 "new" 60 c).1 = Raise KeyError.
Proof. split; reflexivity. Qed.

(** C3 (as amended).  Mirror invariant: starting from the empty cache,
    after every sequence of store operations in which each [set_token] is
    given a token that no other principal is using at that moment, no
    operation has raised, every lookup entry has its record with the same
    principal and expiry, every record has its lookup entry, and that entry
    is the only one that names the principal. *)
Theorem mirror_invariant ops :
  tokens_unique ops init = true →
  mirror (run ops init)
  ∧ (∀ u e t i,
       _refresh_tokens (run ops init) !! u = Some e →
       _token_lookup (run ops init) !! t = Some i →
       user_id i = u → t = refresh_token e)
  ∧ all_returned ops init = true.
Proof.
  intros Hu.
  destruct (run_mirror ops init Hu mirror_init) as [Hm Hall].
  split_and!; [done| |done].
  intros u e t i He Hi Hui.
  destruct Hm as [Hs Hr].
  destruct (Hs _ _ Hi) as (e' & He' & Htok & _).
  rewrite Hui in He'. congruence.
Qed.

Lemma mirror_invariant_witness :
  let ops := [SetToken 0 0 1 "a" 5; SetToken 1 1 2 "b" 20; GetUserIdByToken 9 "a";
              SetToken 10 10 1 "c" 5; DeleteToken 2; CleanupExpiredTokens 30] in
  mirror (run ops init)
  ∧ (∀ u e t i,
       _refresh_tokens (run ops init) !! u = Some e →
       _token_lookup (run ops init) !! t = Some i →
       user_id i = u → t = refresh_token e)
  ∧ all_returned ops init = true.
Proof. intros ops. apply (mirror_invariant ops). reflexivity. Defined.

(** C3, as stated, fails: two principals given the same token string leave
    the first principal's record without a lookup entry of its own. *)
Lemma mirror_broken_by_shared_token :
  ¬ mirror (run [SetToken 0 0 1 "tok" 60; SetToken 0 0 2 "tok" 60] init).
Proof.
  intros [_ Hr].
  specialize (Hr 1 (mkRefreshEntry "tok" 60 0) eq_refl).
  vm_compute in Hr. discriminate Hr.
Qed.

(** C4.  Sweep completeness: in a cache every lookup entry of which has its
    record (every cache reached from the empty one is such a cache) and
    that holds [N] records with [expires_at < now] and [M] records with
    [expires_at >= now], [cleanup_expired_tokens] returns [N]; afterwards
    the records are exactly the [M] live ones, unchanged, the lookup
    entries are exactly the live ones, and nothing expired is left in
    either map.  When the two maps mirror each other, the lookup too had
    [N] expired entries and keeps [M] live ones, and the maps still mirror
    each other. *)
Theorem sweep_completeness now c N M :
  index_sound c →
  size (expired_records now c) = N → size (live_records now c) = M →
  ∃ c', cleanup_expired_tokens now c = (Ret (Z.of_nat N), c')
    ∧ _refresh_tokens c' = live_records now c
    ∧ _token_lookup c' = live_entries now c
    ∧ size (_refresh_tokens c') = M
    ∧ expired_records now c' = ∅ ∧ expired_entries now c' = ∅
    ∧ index_sound c'
    ∧ (records_indexed c →
         size (expired_entries now c) = N
         ∧ size (_token_lookup c') = M
         ∧ mirror c').
Proof.
  intros Hs HN HM.
  destruct (cleanup_sound_spec now c Hs) as (c' & Hrun & Hrf & Hlk).
  assert (Hs' : index_sound c').
  { pose proof (cleanup_index_sound now c Hs) as H. by rewrite Hrun in H. }
  exists c'. split_and!.
  - by rewrite Hrun, HN.
  - done.
  - done.
  - by rewrite Hrf.
  - apply map_empty. intros u. apply map_lookup_filter_None. right.
    intros e He. simpl. rewrite Hrf in He.
    apply map_lookup_filter_Some in He as [_ He]. simpl in He. lia.
  - apply map_empty. intros t. apply map_lookup_filter_None. right.
    intros i Hi. simpl. rewrite Hlk in Hi.
    apply map_lookup_filter_Some in Hi as [_ Hi]. simpl in Hi. lia.
  - done.
  - intros Hr. assert (Hm : mirror c) by done. split_and!.
    + rewrite <- HN. apply (mirror_size _ (mirror_expired_part now c Hm)).
    + rewrite Hlk, <- HM. apply (mirror_size _ (mirror_live_part now c Hm)).
    + split; [done|].
      pose proof (cleanup_records_indexed now c Hr) as H. by rewrite Hrun in H.
Qed.

Lemma sweep_completeness_witness :
  let c := run [SetToken 0 0 1 "a" 5; SetToken 0 0 2 "a" 7; SetToken 0 0 3 "c" 20] init in
  ∃ c', cleanup_expired_tokens 10 c = (Ret (Z.of_nat 2), c')
    ∧ _refresh_tokens c' = live_records 10 c
    ∧ _token_lookup c' = live_entries 10 c
    ∧ size (_refresh_tokens c') = 1%nat
    ∧ expired_records 10 c' = ∅ ∧ expired_entries 10 c' = ∅
    ∧ index_sound c'
    ∧ (records_indexed c →
         size (expired_entries 10 c) = 2%nat
         ∧ size (_token_lookup c') = 1%nat
         ∧ mirror c').
Proof.
  intros c. apply (sweep_completeness 10 c 2 1).
  - apply run_index_sound, index_sound_init.
  - reflexivity.
  - reflexivity.
Defined.

(** C7.  Lazy expiry eviction: in a cache where [P]'s current record, if
    any, is indexed, after [set_token P t ttl] with [ttl < 0], a later
    lookup of [t] returns [None] and leaves neither a lookup entry for [t]
    nor a record for [P]. *)
Theorem lazy_expiry_eviction now1 created now2 P t ttl c :
  record_indexed c P → ttl < 0 → now1 <= now2 →
  ∃ c1 c2,
    set_token now1 created P t ttl c = (Ret tt, c1)
    ∧ get_user_id_by_token now2 t c1 = (Ret None, c2)
    ∧ _token_lookup c2 !! t = None
    ∧ _refresh_tokens c2 !! P = None.
Proof.
  intros Hidx Hneg Hclock.
  pose proof (set_token_returns now1 created P t ttl c Hidx) as H1.
  set (c1 := (set_token now1 created P t ttl c).2).
  assert (Hlk1 : _token_lookup c1 !! t = Some (mkLookupEntry P (now1 + ttl))).
  { unfold c1. rewrite H1. simpl. apply lookup_insert_eq. }
  eexists c1, _. split_and!.
  - unfold c1. by rewrite H1.
  - apply (get_user_expired _ _ _ _ Hlk1). simpl. lia.
  - simpl. apply lookup_delete_eq.
  - simpl. apply lookup_delete_eq.
Qed.

Lemma lazy_expiry_eviction_witness :
  ∃ c1 c2,
    set_token 100 100 7 "tok" (-1) init = (Ret tt, c1)
    ∧ get_user_id_by_token 100 "tok" c1 = (Ret None, c2)
    ∧ _token_lookup c2 !! "tok" = None
    ∧ _refresh_tokens c2 !! 7 = None.
Proof.
  apply (lazy_expiry_eviction 100 100 100 7 "tok" (-1) init).
  - apply mirror_record_indexed, mirror_init.
  - lia.
  - lia.
Defined.

End store_claims.

(** ** Integers in subjects: [str], [split] and [int] *)

Section string_facts.

Import Spec.

Example split_subject : split ":" "refresh:12" = ["refresh"; "12"].
Proof. reflexivity. Qed.

Example split_empty : split ":" "" = [""].
Proof. reflexivity. Qed.

Example py_int_padded : py_int " +1_000 " = Ret 1000.
Proof. reflexivity. Qed.

Example py_int_empty : py_int "" = Raise ValueError.
Proof. reflexivity. Qed.

Example py_int_letters : py_int "abc" = Raise ValueError.
Proof. reflexivity. Qed.

Example py_str_negative : py_str (-120) = "-120".
Proof. reflexivity. Qed.

(** Without a subject, both defaults lead to [int("")]. *)
Example subject_id_absent :
  Jose.subject_id ∅ "" = Raise ValueError ∧ Jose.subject_id ∅ ":" = Raise ValueError.
Proof. split; reflexivity. Qed.

Lemma digit_not_space a : is_digit a = true → is_space a = false.
Proof. by destruct a as [[] [] [] [] [] [] [] []]. Qed.

Lemma sign_or_digit_plain a :
  sign_or_digit a = true → is_space a = false ∧ Ascii.eqb a ":" = false.
Proof. by destruct a as [[] [] [] [] [] [] [] []]. Qed.

Lemma digits_all d : all_chars is_digit (NilEmpty.string_of_uint d) = true.
Proof. induction d; simpl; auto. Qed.

Lemma all_chars_weaken (P Q : ascii → bool) s :
  (∀ a, P a = true → Q a = true) → all_chars P s = true → all_chars Q s = true.
Proof.
  intros HPQ. induction s as [|a s IH]; simpl; [done|].
  intros [Ha Hs]%andb_true_iff. rewrite (HPQ _ Ha). simpl. auto.
Qed.

Lemma py_str_chars z : all_chars sign_or_digit (py_str z) = true.
Proof.
  assert (∀ d, all_chars sign_or_digit (NilEmpty.string_of_uint d) = true) as Hd.
  { intros d. apply (all_chars_weaken is_digit); [|apply digits_all].
    intros a Ha. unfold sign_or_digit. by rewrite Ha. }
  destruct z; simpl; auto.
Qed.

Lemma lstrip_plain s :
  all_chars sign_or_digit s = true → lstrip s = s.
Proof.
  destruct s as [|a s]; simpl; [done|].
  intros [Ha _]%andb_true_iff.
  by destruct (sign_or_digit_plain _ Ha) as [-> _].
Qed.

Lemma rstrip_plain s :
  all_chars sign_or_digit s = true → rstrip s = s.
Proof.
  induction s as [|a s IH]; simpl; [done|].
  intros [Ha Hs]%andb_true_iff. rewrite (IH Hs).
  destruct (sign_or_digit_plain _ Ha) as [-> _]. by destruct s.
Qed.

Lemma strip_plain s : all_chars sign_or_digit s = true → strip s = s.
Proof. intros H. unfold strip. by rewrite lstrip_plain, rstrip_plain. Qed.

Lemma int_digits_all s b :
  all_chars is_digit s = true → (s ≠ EmptyString ∨ b = true) →
  int_digits s b = Some s.
Proof.
  revert b. induction s as [|a s IH]; intros b Hall Hne; simpl.
  - destruct Hne as [?| ->]; done.
  - simpl in Hall. apply andb_true_iff in Hall as [-> Hs].
    rewrite (IH true Hs); [done|by right].
Qed.

Lemma py_int_digits d :
  d ≠ Nil →
  py_int (NilEmpty.string_of_uint d) = Ret (Z.of_uint d)
  ∧ py_int (String "-" (NilEmpty.string_of_uint d)) = Ret (- Z.of_uint d).
Proof.
  intros Hd.
  pose proof (digits_all d) as Hall.
  assert (Hne : NilEmpty.string_of_uint d ≠ EmptyString) by (by destruct d).
  assert (Hdig : int_digits (NilEmpty.string_of_uint d) false
                 ≫= NilEmpty.uint_of_string = Some d).
  { rewrite int_digits_all by auto. simpl. apply NilEmpty.usu. }
  unfold py_int. split.
  - rewrite strip_plain.
    + destruct d; try done; simpl in Hdig |- *; by rewrite Hdig.
    + apply (all_chars_weaken is_digit); [|done].
      intros a Ha. unfold sign_or_digit. by rewrite Ha.
  - rewrite strip_plain.
    + by rewrite Hdig.
    + simpl. apply (all_chars_weaken is_digit); [|done].
      intros a Ha. unfold sign_or_digit. by rewrite Ha.
Qed.

(** [int(str(z)) == z] *)
Lemma py_int_py_str z : py_int (py_str z) = Ret z.
Proof.
  destruct z as [|p|p]; [done| |].
  - change (py_str (Z.pos p)) with (NilEmpty.string_of_uint (Pos.to_uint p)).
    destruct (py_int_digits (Pos.to_uint p)) as [-> _].
    { apply DecimalPos.Unsigned.to_uint_nonnil. }
    unfold Z.of_uint. by rewrite DecimalPos.Unsigned.of_to.
  - change (py_str (Z.neg p))
      with (String "-" (NilEmpty.string_of_uint (Pos.to_uint p))).
    destruct (py_int_digits (Pos.to_uint p)) as [_ ->].
    { apply DecimalPos.Unsigned.to_uint_nonnil. }
    unfold Z.of_uint. by rewrite DecimalPos.Unsigned.of_to.
Qed.

Lemma split_no_colon s :
  all_chars sign_or_digit s = true → split ":" s = [s].
Proof.
  induction s as [|a s IH]; simpl; [done|].
  intros [Ha Hs]%andb_true_iff.
  destruct (sign_or_digit_plain _ Ha) as [_ ->]. by rewrite (IH Hs).
Qed.

(** The last segment of ["user:<id>"] and of ["refresh:<id>"] is [<id>]. *)
Lemma last_segment_user z :
  item_last (split ":" ("user:" +:+ py_str z)) = Ret (py_str z).
Proof.
  change ("user:" +:+ py_str z)
    with (String "u" (String "s" (String "e" (String "r" (String ":" (py_str z)))))).
  simpl. by rewrite split_no_colon by apply py_str_chars.
Qed.

Lemma last_segment_refresh z :
  item_last (split ":" ("refresh:" +:+ py_str z)) = Ret (py_str z).
Proof.
  change ("refresh:" +:+ py_str z)
    with (String "r" (String "e" (String "f" (String "r" (String "e"
           (String "s" (String "h" (String ":" (py_str z))))))))).
  simpl. by rewrite split_no_colon by apply py_str_chars.
Qed.

End string_facts.

(** ** The authentication protocol *)

Section protocol_facts.

Import Cache Spec Schemas Security Auth.
Context (J : Jose.Codec) (D : Deps).

(** *** Subjects of minted tokens *)

Lemma subject_id_minted now user scopes dflt :
  Jose.subject_id (minted_claims J now user scopes) dflt = Ret (Models.user_id user).
Proof.
  unfold Jose.subject_id, Jose.get.
  change (Py.bind (item_last (split ":" ("user:" +:+ py_str (Models.user_id user))))
            py_int = Ret (Models.user_id user)).
  rewrite last_segment_user. apply py_int_py_str.
Qed.

Lemma subject_id_refresh now user_id delta dflt :
  Jose.subject_id (refresh_to_encode J now user_id delta) dflt = Ret user_id.
Proof.
  unfold Jose.subject_id, Jose.get.
  change (Py.bind (item_last (split ":" ("refresh:" +:+ py_str user_id)))
            py_int = Ret user_id).
  rewrite last_segment_refresh. apply py_int_py_str.
Qed.

(** *** [get_current_user] *)

Lemma get_current_user_decode_fails required token :
  Jose.jwt_decode J token = Raise JWTError →
  get_current_user J D required token = Raise (credentials_exception required).
Proof. unfold get_current_user. by intros ->. Qed.

Lemma get_current_user_wrong_type required token payload uid :
  Jose.jwt_decode J token = Ret payload →
  Jose.subject_id payload "" = Ret uid →
  eq_str (Jose.get payload "type" (JStr "access")) "access" = false →
  get_current_user J D required token =
    Raise (if bool_decide (uid = 0) then credentials_exception required
           else HTTPException HTTP_403_FORBIDDEN "Invalid token type"
                  (authenticate_value required)).
Proof.
  unfold get_current_user. intros -> Hsub Htype. simpl.
  rewrite Hsub. simpl. case_bool_decide; [done|]. by rewrite Htype.
Qed.

Lemma get_current_user_bad_subject required token payload :
  Jose.jwt_decode J token = Ret payload →
  Jose.subject_id payload "" = Raise ValueError →
  get_current_user J D required token = Raise ValueError.
Proof. unfold get_current_user. intros -> Hsub. simpl. by rewrite Hsub. Qed.

(** What the principal query raises escapes as well, unless it is one of
    the two caught classes. *)
Lemma get_current_user_query_raises required token payload uid e :
  Jose.jwt_decode J token = Ret payload →
  Jose.subject_id payload "" = Ret uid → uid ≠ 0 →
  eq_str (Jose.get payload "type" (JStr "access")) "access" = true →
  query_active_user D uid = Raise e →
  e ≠ JWTError → e ≠ ValidationError →
  get_current_user J D required token = Raise e.
Proof.
  unfold get_current_user. intros -> Hsub Hid Htype Hq H1 H2. simpl.
  rewrite Hsub. simpl. rewrite bool_decide_eq_false_2 by done.
  rewrite Htype. simpl. rewrite Hq. simpl. by destruct e.
Qed.

Lemma check_scopes_raises all_scopes token_scopes remaining e :
  check_scopes all_scopes token_scopes remaining = Raise e →
  e = TypeError
  ∨ e = HTTPException HTTP_403_FORBIDDEN "Not enough permissions"
          (authenticate_value all_scopes).
Proof.
  induction remaining as [|scope rest IH]; simpl; [done|].
  destruct (py_in scope token_scopes) as [[|]|e'] eqn:Hin; simpl.
  - done.
  - intros [= <-]. by right.
  - intros [= <-]. left. destruct token_scopes; simpl in Hin; congruence.
Qed.

(** A token minted for [user], presented while it still decodes and while
    [user] is still there: only the scope check remains. *)
Lemma get_current_user_minted required token now user scopes :
  Jose.jwt_decode J token = Ret (minted_claims J now user scopes) →
  Models.user_id user ≠ 0 →
  query_active_user D (Models.user_id user) = Ret (Some user) →
  get_current_user J D required token =
    Py.bind (check_scopes required
               (JArr (JStr <$> match scopes with [] => ["user"] | _ => scopes end))
               required)
            (fun _ => Ret user).
Proof.
  unfold get_current_user. intros -> Hid Hq. simpl.
  rewrite subject_id_minted. simpl.
  rewrite bool_decide_eq_false_2 by done.
  change (Jose.get (minted_claims J now user scopes) "type" (JStr "access"))
    with (JStr "access").
  simpl. rewrite Hq. simpl.
  assert (Jose.get (minted_claims J now user scopes) "scopes" (JArr [])
          = JArr (JStr <$> match scopes with [] => ["user"] | _ => scopes end)) as ->.
  { by destruct scopes. }
  destruct (check_scopes _ _ _) as [[]|e] eqn:Hchk; [done|].
  by destruct (check_scopes_raises _ _ _ _ Hchk) as [-> | ->].
Qed.

Lemma get_current_user_zero required token now user scopes :
  Jose.jwt_decode J token = Ret (minted_claims J now user scopes) →
  Models.user_id user = 0 →
  get_current_user J D required token = Raise (credentials_exception required).
Proof.
  unfold get_current_user. intros -> Hid. simpl.
  rewrite subject_id_minted. simpl.
  by rewrite bool_decide_eq_true_2.
Qed.

(** *** [verify_token] and [refresh_token] *)

Lemma refresh_token_returns now_lookup now_access token c :
  ∃ r, (refresh_token J D now_lookup now_access token c).1 = Ret r.
Proof.
  unfold refresh_token, ctry.
  destruct (cbind _ _ c) as [[r|e] c']; simpl; eauto.
Qed.

(** A token without lookup entry is refused, whatever the codec says. *)
Lemma refresh_token_absent now_lookup now_access token c :
  _token_lookup c !! token = None →
  refresh_token J D now_lookup now_access token c = (Ret invalid_refresh_token, c).
Proof.
  intros Habs. unfold refresh_token, verify_token, ctry, cbind, lift, ret.
  destruct (Jose.jwt_decode J token) as [payload|e]; [|by destruct e].
  destruct (eq_str (Jose.get payload "type" JNull) "refresh") eqn:Htype.
  - by rewrite (get_user_absent _ _ _ Habs).
  - simpl. rewrite Htype. simpl. by rewrite orb_true_r.
Qed.

(** The lookup yields no principal: the token is absent or has expired. *)
Lemma refresh_token_unresolved now_lookup now_access token c :
  (get_user_id_by_token now_lookup token c).1 = Ret None →
  (refresh_token J D now_lookup now_access token c).1 = Ret invalid_refresh_token.
Proof.
  intros Hnone. unfold refresh_token, verify_token, ctry, cbind, lift, ret.
  destruct (Jose.jwt_decode J token) as [payload|e]; [|by destruct e].
  destruct (eq_str (Jose.get payload "type" JNull) "refresh") eqn:Htype.
  - destruct (get_user_id_by_token now_lookup token c) as [r c'].
    simpl in Hnone. by subst r.
  - simpl. rewrite Htype. simpl. by rewrite orb_true_r.
Qed.

Lemma refresh_token_decode_fails now_lookup now_access token c :
  Jose.jwt_decode J token = Raise JWTError →
  refresh_token J D now_lookup now_access token c = (Ret invalid_refresh_token, c).
Proof.
  intros Hdec. unfold refresh_token, verify_token, ctry, cbind, lift, ret.
  by rewrite Hdec.
Qed.

(** What a successful refresh went through. *)
Lemma refresh_token_success_inv now_lookup now_access token c r c' :
  refresh_token J D now_lookup now_access token c = (Ret r, c') →
  isSuccess r = true →
  ∃ payload uid user,
    Jose.jwt_decode J token = Ret payload
    ∧ eq_str (Jose.get payload "type" JNull) "refresh" = true
    ∧ get_user_id_by_token now_lookup token c = (Ret (Some uid), c')
    ∧ Jose.subject_id payload ":" = Ret uid
    ∧ uid ≠ 0
    ∧ query_active_user D uid = Ret (Some user)
    ∧ r = result_success
            (RefreshData
               (mint_access_token J now_access user (role_scopes (Models.user_role user)))
               "bearer" (minutes 30) token (Models.user_id user)
               (role_scopes (Models.user_role user))).
Proof.
  unfold refresh_token, verify_token, ctry, cbind, lift, ret.
  destruct (Jose.jwt_decode J token) as [payload|e];
    [|destruct e; simpl; intros [= <- <-]; done].
  destruct (eq_str (Jose.get payload "type" JNull) "refresh") eqn:Htype;
    [|simpl; rewrite Htype, orb_true_r; simpl; intros [= <- <-]; done].
  destruct (get_user_id_by_token now_lookup token c) as [[[uid|]|e] c1] eqn:Hget;
    [|simpl; intros [= <- <-]; done|destruct e; simpl; intros [= <- <-]; done].
  destruct (decide (uid = 0)) as [->|Huid]; [simpl; intros [= <- <-]; done|].
  assert (Hstep : ∀ (A : Type) (k1 k2 : A),
            match uid with 0 => k1 | _ => k2 end = k2).
  { intros. by destruct uid. }
  rewrite Hstep. clear Hstep.
  destruct (Jose.subject_id payload ":") as [sid|e] eqn:Hsub;
    [|destruct e; simpl; intros [= <- <-]; done].
  case_bool_decide as Hne; [simpl; intros [= <- <-]; done|].
  subst sid.
  simpl. rewrite Htype. simpl.
  case_bool_decide; [simpl; intros [= <- <-]; done|]. simpl.
  rewrite Hsub. simpl.
  rewrite bool_decide_eq_false_2 by done.
  destruct (query_active_user D uid) as [[user|]|e] eqn:Hq;
    simpl; intros [= <- <-]; try done.
  intros _. by exists payload, uid, user.
Qed.

(** *** [login] *)

Lemma login_unknown_user na nr np nc username password c :
  query_login_user D username = Ret None →
  login J D na nr np nc username password c = (Ret incorrect_credentials, c).
Proof. unfold login, cbind, lift, ret. by intros ->. Qed.

Lemma login_wrong_password na nr np nc username password user c :
  query_login_user D username = Ret (Some user) →
  verify_password D
    (if bool_decide (String.length password ≠ 32%nat) then md5_hex D password
     else password)
    (Models.password user) = Ret false →
  login J D na nr np nc username password c = (Ret incorrect_credentials, c).
Proof. unfold login, cbind, lift, ret. by intros -> ->. Qed.

Lemma login_success_inv na nr np nc username password c r c' :
  login J D na nr np nc username password c = (Ret r, c') →
  isSuccess r = true →
  ∃ user,
    query_login_user D username = Ret (Some user)
    ∧ r = result_success
            (LoginData (Models.user_id user) (Models.user_name user)
               (Models.user_num user) (Models.user_role user)
               (Models.userrole_id user) (Models.tenant_id user)
               (Models.email user) (Models.phone user)
               (mint_access_token J na user (role_scopes (Models.user_role user)))
               "bearer" (minutes 30)
               (create_refresh_token J nr (Models.user_id user) None)
               (role_scopes (Models.user_role user))).
Proof.
  unfold login, cbind, lift, ret.
  destruct (query_login_user D username) as [[user|]|e];
    [|intros [= <- <-]; done|done].
  destruct (verify_password D _ _) as [[|]|e]; simpl;
    [|intros [= <- <-]; done|done].
  destruct (set_token _ _ _ _ _ c) as [[[]|e] c1]; [|done].
  intros [= <- <-] _. by exists user.
Qed.

End protocol_facts.

(** ** The claims about the authentication protocol *)

Section protocol_claims.

Import Cache Spec Schemas Security Auth.

(** C1.  Revocation precedence over signature: once [delete_token P] has
    run, a refresh with the token that [P] held returns the
    ["Invalid refresh token"] error, whatever the codec says about the
    token; and a refresh that succeeds has had the lookup of its token, in
    the cache it ran on, return the very principal id that its subject
    claim names. *)
Theorem revocation_precedence J D now_lookup now_access :
  (∀ c P e,
     _refresh_tokens c !! P = Some e →
     refresh_token J D now_lookup now_access (Cache.refresh_token e) (delete_token P c).2
     = (Ret invalid_refresh_token, (delete_token P c).2))
  ∧ (∀ c token r c',
       refresh_token J D now_lookup now_access token c = (Ret r, c') →
       isSuccess r = true →
       ∃ payload uid,
         Jose.jwt_decode J token = Ret payload
         ∧ (get_user_id_by_token now_lookup token c).1 = Ret (Some uid)
         ∧ Jose.subject_id payload ":" = Ret uid).
Proof.
  split.
  - intros c P e He. apply refresh_token_absent.
    by apply (invalidate_user_post c P).
  - intros c token r c' Hrun Hok.
    destruct (refresh_token_success_inv _ _ _ _ _ _ _ _ Hrun Hok)
      as (payload & uid & user & Hdec & _ & Hget & Hsub & _).
    exists payload, uid. by rewrite Hget.
Qed.

Lemma revocation_precedence_witness :
  let c := (set_token 100 100 7 "refresh-alice" (days 30) init).2 in
  Jose.jwt_decode Scenario.codec "refresh-alice" = Ret (Scenario.refresh_claims 100 7)
  ∧ refresh_token Scenario.codec Scenario.deps 200 200 "refresh-alice" (delete_token 7 c).2
    = (Ret invalid_refresh_token, (delete_token 7 c).2)
  ∧ ∃ payload uid,
      Jose.jwt_decode Scenario.codec "refresh-alice" = Ret payload
      ∧ (get_user_id_by_token 200 "refresh-alice" c).1 = Ret (Some uid)
      ∧ Jose.subject_id payload ":" = Ret uid.
Proof.
  intros c.
  destruct (revocation_precedence Scenario.codec Scenario.deps 200 200) as [H1 H2].
  split_and!.
  - reflexivity.
  - apply (H1 c 7 (mkRefreshEntry "refresh-alice" (100 + days 30) 100)). reflexivity.
  - eapply (H2 c "refresh-alice"); [vm_compute; reflexivity|reflexivity].
Defined.

(** C10.  Principal id 0: a refresh token that decodes, is of type
    [refresh] and is the live lookup entry of principal 0 is refused;
    [verify_token] returns [None], the refresh returns the
    ["Invalid refresh token"] error, and the cache is left as it was. *)
Theorem principal_zero_never_refreshes J D now_lookup now_access token payload c i :
  Jose.jwt_decode J token = Ret payload →
  eq_str (Jose.get payload "type" JNull) "refresh" = true →
  _token_lookup c !! token = Some i → user_id i = 0 →
  now_lookup <= lk_expires_at i →
  verify_token J now_lookup token c = (Ret None, c)
  ∧ refresh_token J D now_lookup now_access token c = (Ret invalid_refresh_token, c).
Proof.
  intros Hdec Htype Hi Hzero Hlive.
  assert (Hv : verify_token J now_lookup token c = (Ret None, c)).
  { unfold verify_token, ctry, cbind, lift, ret. rewrite Hdec, Htype.
    rewrite (get_user_live _ _ _ _ Hi Hlive). by rewrite Hzero. }
  split; [done|].
  unfold refresh_token, ctry, cbind. by rewrite Hv.
Qed.

Lemma principal_zero_never_refreshes_witness :
  let c := (set_token 100 100 0 "refresh-root" (days 30) init).2 in
  verify_token Scenario.codec 200 "refresh-root" c = (Ret None, c)
  ∧ refresh_token Scenario.codec Scenario.deps 200 200 "refresh-root" c
    = (Ret invalid_refresh_token, c).
Proof.
  intros c.
  apply (principal_zero_never_refreshes Scenario.codec Scenario.deps 200 200
           "refresh-root" (Scenario.refresh_claims 100 0) c
           (mkLookupEntry 0 (100 + days 30))).
  - reflexivity.
  - reflexivity.
  - reflexivity.
  - reflexivity.
  - vm_compute. discriminate.
Defined.

(** C6 (as amended).  [get_current_user] raises the 401
    ["Could not validate credentials"] exception when the codec fails to
    decode the token.  When the token decodes, its subject ends in an
    integer and its type is not [access], it raises the 403
    ["Invalid token type"] exception, except for the subject id 0, which
    gets the 401 exception before the type is looked at. *)
Theorem authorize_rejections J D required token :
  (Jose.jwt_decode J token = Raise JWTError →
   get_current_user J D required token = Raise (credentials_exception required))
  ∧ (∀ payload uid,
       Jose.jwt_decode J token = Ret payload →
       Jose.subject_id payload "" = Ret uid →
       eq_str (Jose.get payload "type" (JStr "access")) "access" = false →
       get_current_user J D required token =
         Raise (if bool_decide (uid = 0) then credentials_exception required
                else HTTPException HTTP_403_FORBIDDEN "Invalid token type"
                       (authenticate_value required))).
Proof.
  split.
  - apply get_current_user_decode_fails.
  - intros payload uid. apply get_current_user_wrong_type.
Qed.

Lemma authorize_rejections_witness :
  get_current_user Scenario.codec Scenario.deps ["user"] "garbage"
  = Raise (credentials_exception ["user"])
  ∧ get_current_user Scenario.codec Scenario.deps ["user"] "refresh-alice"
    = Raise (HTTPException HTTP_403_FORBIDDEN "Invalid token type"
               (authenticate_value ["user"])).
Proof.
  split.
  - apply (authorize_rejections Scenario.codec Scenario.deps ["user"] "garbage").
    reflexivity.
  - apply (proj2 (authorize_rejections Scenario.codec Scenario.deps ["user"]
                    "refresh-alice") (Scenario.refresh_claims 100 7) 7);
      reflexivity.
Defined.

(** C6, as stated, fails: a refresh token presented as an access token gets
    the 403 exception, not a 401. *)
Lemma refresh_token_as_access_token_is_403 :
  ¬ (∃ detail header,
       get_current_user Scenario.codec Scenario.deps ["user"] "refresh-alice"
       = Raise (HTTPException HTTP_401_UNAUTHORIZED detail header)).
Proof. intros (detail & header & H). vm_compute in H. discriminate H. Qed.

(** C8.  [get_current_user] lets a [ValueError] escape on a token that
    decodes but has no subject, or a subject that does not end in an
    integer: the [except] clause covers [JWTError] and [ValidationError]
    only. *)
Theorem get_current_user_lets_ValueError_escape :
  Jose.jwt_decode Scenario.codec "no-subject" = Ret Scenario.no_subject
  ∧ get_current_user Scenario.codec Scenario.deps ["user"] "no-subject"
    = Raise ValueError
  ∧ get_current_user Scenario.codec Scenario.deps ["user"] "odd-subject"
    = Raise ValueError
  ∧ refresh_token Scenario.codec Scenario.deps 200 200 "odd-subject" init
    = (Ret invalid_refresh_token, init).
Proof. split_and!; reflexivity. Qed.

(** C9.  Error indistinguishability: a login for which no principal is
    found and a login whose password does not verify return the same
    result; a refresh whose token fails to decode and a refresh whose token
    decodes but resolves to no principal in the cache return the same
    result. *)
Theorem error_indistinguishability J D :
  (∀ na nr np nc na' nr' np' nc' username1 password1 username2 password2 user c1 c2,
     query_login_user D username1 = Ret None →
     query_login_user D username2 = Ret (Some user) →
     verify_password D
       (if bool_decide (String.length password2 ≠ 32%nat) then md5_hex D password2
        else password2)
       (Models.password user) = Ret false →
     (login J D na nr np nc username1 password1 c1).1
     = (login J D na' nr' np' nc' username2 password2 c2).1
     ∧ (login J D na nr np nc username1 password1 c1).1 = Ret incorrect_credentials)
  ∧ (∀ nl na nl' na' token1 token2 payload c1 c2,
       Jose.jwt_decode J token1 = Raise JWTError →
       Jose.jwt_decode J token2 = Ret payload →
       (get_user_id_by_token nl' token2 c2).1 = Ret None →
       (refresh_token J D nl na token1 c1).1
       = (refresh_token J D nl' na' token2 c2).1
       ∧ (refresh_token J D nl na token1 c1).1 = Ret invalid_refresh_token).
Proof.
  split.
  - intros * Hnone Hsome Hbad.
    rewrite (login_unknown_user _ _ _ _ _ _ _ _ _ Hnone).
    by rewrite (login_wrong_password _ _ _ _ _ _ _ _ _ _ Hsome Hbad).
  - intros * Hfail Hdec Hnone.
    rewrite (refresh_token_decode_fails _ _ _ _ _ _ Hfail).
    by rewrite (refresh_token_unresolved _ _ _ _ _ _ Hnone).
Qed.

Lemma error_indistinguishability_witness :
  let c := (set_token 100 100 7 "refresh-alice" (days 30) init).2 in
  ((login Scenario.codec Scenario.deps 1 2 3 4 "carol" "secret" init).1
   = (login Scenario.codec Scenario.deps 5 6 7 8 "alice" "wrong" c).1
   ∧ (login Scenario.codec Scenario.deps 1 2 3 4 "carol" "secret" init).1
     = Ret incorrect_credentials)
  ∧ ((refresh_token Scenario.codec Scenario.deps 200 200 "garbage" c).1
     = (refresh_token Scenario.codec Scenario.deps 300 300 "refresh-alice"
          (delete_token 7 c).2).1
     ∧ (refresh_token Scenario.codec Scenario.deps 200 200 "garbage" c).1
       = Ret invalid_refresh_token).
Proof.
  intros c.
  destruct (error_indistinguishability Scenario.codec Scenario.deps) as [H1 H2].
  split.
  - apply (H1 1 2 3 4 5 6 7 8 "carol" "secret" "alice" "wrong" Scenario.alice init c);
      reflexivity.
  - apply (H2 200 200 300 300 "garbage" "refresh-alice"
             (Scenario.refresh_claims 100 7) c (delete_token 7 c).2); reflexivity.
Defined.

(** C5.  Scope derivation and inheritance, on the code as it is.  The
    scopes derived from a role are as the claim has them: [user] always,
    [manager] for managers and admins, [admin] for admins.  The
    authorisation that should follow does not: [get_current_user] builds
    its filter from [models.User.id] and [models.User.is_active], which the
    class does not declare, so for a token minted for a principal whose id
    is not 0 (an admin as well as a plain user) and for every set of
    required scopes it raises [AttributeError], before the scopes are
    looked at; and it returns for no token at all. *)
Theorem scope_inheritance_stops_at_the_query J D :
  (∀ role scope,
     scope ∈ role_scopes role ↔
       scope = "user"
       ∨ (scope = "manager" ∧ (role = "admin" ∨ role = "manager"))
       ∨ (scope = "admin" ∧ role = "admin"))
  ∧ (∀ required token now user,
       Jose.jwt_decode J token
       = Ret (minted_claims J now user (role_scopes (Models.user_role user))) →
       Models.user_id user ≠ 0 →
       get_current_user J (Queries.shipped D) required token = Raise AttributeError)
  ∧ (∀ required token,
       is_Ret (get_current_user J (Queries.shipped D) required token) = false).
Proof.
  split_and!.
  - intros role scope. unfold role_scopes.
    destruct (decide (role = "admin")) as [->|Hna].
    { rewrite bool_decide_eq_true_2 by done.
      rewrite !elem_of_cons, elem_of_nil. intuition congruence. }
    rewrite bool_decide_eq_false_2 by done.
    destruct (decide (role = "manager")) as [->|Hnm].
    { rewrite bool_decide_eq_true_2 by done.
      rewrite !elem_of_cons, elem_of_nil. intuition congruence. }
    rewrite bool_decide_eq_false_2 by done.
    rewrite !elem_of_cons, elem_of_nil. intuition congruence.
  - intros required token now user Hdec Hid.
    eapply get_current_user_query_raises;
      [exact Hdec|apply subject_id_minted|exact Hid|reflexivity|reflexivity
      |discriminate|discriminate].
  - intros required token. unfold get_current_user.
    destruct (Jose.jwt_decode J token) as [payload|e]; [|by destruct e].
    simpl.
    destruct (Jose.subject_id payload "") as [uid|e]; [|by destruct e].
    simpl. case_bool_decide; [done|].
    by destruct (negb (eq_str (Jose.get payload "type" (JStr "access")) "access")).
Qed.

Lemma scope_inheritance_stops_at_the_query_witness :
  get_current_user Scenario.codec (Queries.shipped Scenario.deps) ["admin"]
    "access-alice" = Raise AttributeError
  ∧ get_current_user Scenario.codec (Queries.shipped Scenario.deps) ["user"]
      "access-alice" = Raise AttributeError
  ∧ get_current_user Scenario.codec (Queries.shipped Scenario.deps) ["user"]
      "access-bob" = Raise AttributeError.
Proof.
  destruct (scope_inheritance_stops_at_the_query Scenario.codec Scenario.deps)
    as (_ & Hraise & _).
  split_and!.
  - apply (Hraise ["admin"] "access-alice" 100 Scenario.alice);
      [reflexivity|discriminate].
  - apply (Hraise ["user"] "access-alice" 100 Scenario.alice);
      [reflexivity|discriminate].
  - apply (Hraise ["user"] "access-bob" 100 Scenario.bob);
      [reflexivity|discriminate].
Defined.

End protocol_claims.

(** ** Further properties of the session store *)

Section store_extras.

Import Cache Spec.
Implicit Types (c : TokenCache) (u : Z) (t : string).

(** X1.  [delete_token] tells whether the principal had a record, and a
    second [delete_token] for the same principal returns [False] and
    changes nothing. *)
Theorem delete_token_twice c u b c1 :
  delete_token u c = (Ret b, c1) →
  (b = true ↔ is_Some (_refresh_tokens c !! u))
  ∧ _refresh_tokens c1 !! u = None
  ∧ delete_token u c1 = (Ret false, c1).
Proof.
  unfold delete_token. intros Hrun.
  pose proof (invalidate_user_post c u) as [_ Hnone].
  rewrite Hrun in Hnone. specialize (Hnone eq_refl). simpl in Hnone.
  split_and!; [|done|by apply invalidate_user_absent].
  unfold _invalidate_user_tokens in Hrun.
  destruct (_refresh_tokens c !! u) as [e|] eqn:He.
  - destruct (_token_lookup c !! refresh_token e); [|done].
    injection Hrun as <- <-. split; eauto.
  - injection Hrun as <- <-. split; [done|]. by intros [? ?].
Qed.

Lemma delete_token_twice_witness :
  let c := (set_token 0 0 7 "tok" 60 init).2 in
  (true = true ↔ is_Some (_refresh_tokens c !! 7))
  ∧ _refresh_tokens init !! 7 = None
  ∧ delete_token 7 init = (Ret false, init).
Proof.
  intros c. apply (delete_token_twice c 7 true init). reflexivity.
Defined.

(** X2.  Expiry boundary: a token registered by [set_token] at [now1] with
    [ttl] resolves to its principal at every instant up to and including
    [now1 + ttl], and to [None] from the next instant on. *)
Theorem set_token_valid_until now1 created u t ttl c :
  record_indexed c u →
  ∃ c1, set_token now1 created u t ttl c = (Ret tt, c1)
    ∧ ∀ now2, (get_user_id_by_token now2 t c1).1
              = Ret (if bool_decide (now2 <= now1 + ttl) then Some u else None).
Proof.
  intros Hidx.
  pose proof (set_token_returns now1 created u t ttl c Hidx) as Hrun.
  eexists. split; [exact Hrun|].
  intros now2.
  set (c1 := mkTokenCache _ _).
  assert (Hlk : _token_lookup c1 !! t = Some (mkLookupEntry u (now1 + ttl))).
  { apply lookup_insert_eq. }
  case_bool_decide as Hle.
  - by rewrite (get_user_live _ _ _ _ Hlk).
  - rewrite (get_user_expired _ _ _ _ Hlk); [done|simpl; lia].
Qed.

Lemma set_token_valid_until_witness :
  ∃ c1, set_token 100 100 7 "tok" 60 init = (Ret tt, c1)
    ∧ ∀ now2, (get_user_id_by_token now2 "tok" c1).1
              = Ret (if bool_decide (now2 <= 100 + 60) then Some 7 else None).
Proof.
  apply (set_token_valid_until 100 100 7 "tok" 60 init).
  apply mirror_record_indexed, mirror_init.
Defined.

(** X3.  [set_token] for one principal leaves the others alone: in a
    mirrored cache, given a token that no other principal is using, the
    records of the other principals and the lookup entries that name them
    are what they were, and the maps still mirror each other. *)
Theorem set_token_frame now created u t ttl c :
  mirror c → token_free c u t = true →
  let c1 := (set_token now created u t ttl c).2 in
  (∀ u', u' ≠ u → _refresh_tokens c1 !! u' = _refresh_tokens c !! u')
  ∧ (∀ t' i, _token_lookup c !! t' = Some i → user_id i ≠ u →
             _token_lookup c1 !! t' = Some i)
  ∧ mirror c1.
Proof.
  intros Hm Hfree c1.
  pose proof (mirror_record_indexed c u Hm) as Hidx.
  pose proof (set_token_returns now created u t ttl c Hidx) as Hrun.
  assert (Hm1 : mirror c1).
  { destruct Hm as [Hs Hr]. split.
    - by apply set_token_index_sound.
    - by apply set_token_records_indexed. }
  subst c1. rewrite Hrun in *. simpl. split_and!; [| |done].
  - intros u' Hne. rewrite lookup_insert_ne by done.
    unfold _invalidate_user_tokens.
    destruct (_refresh_tokens c !! u) as [e|] eqn:He; [|done].
    destruct (_token_lookup c !! refresh_token e); [|done].
    simpl. by rewrite lookup_delete_ne.
  - intros t' i Hi Hne.
    assert (t ≠ t') as Hnt.
    { intros <-. unfold token_free in Hfree. rewrite Hi in Hfree.
      by apply bool_decide_eq_true in Hfree. }
    rewrite lookup_insert_ne by done.
    unfold _invalidate_user_tokens.
    destruct (_refresh_tokens c !! u) as [e|] eqn:He; [|done].
    destruct Hm as [_ Hr]. rewrite (Hr _ _ He). simpl.
    rewrite lookup_delete_ne; [done|].
    intros <-. rewrite (Hr _ _ He) in Hi. injection Hi as <-. by apply Hne.
Qed.

Lemma set_token_frame_witness :
  let c := (set_token 0 0 7 "seven" 60 init).2 in
  let c1 := (set_token 1 1 8 "eight" 60 c).2 in
  (∀ u', u' ≠ 8 → _refresh_tokens c1 !! u' = _refresh_tokens c !! u')
  ∧ (∀ t' i, _token_lookup c !! t' = Some i → user_id i ≠ 8 →
             _token_lookup c1 !! t' = Some i)
  ∧ mirror c1.
Proof.
  intros c. apply (set_token_frame 1 1 8 "eight" 60 c).
  - apply (run_mirror [SetToken 0 0 7 "seven" 60] init); [reflexivity|].
    exact mirror_init.
  - reflexivity.
Defined.

(** X4.  [delete_token] in a mirrored cache returns, removes the record of
    the principal and the lookup entry of its token, leaves the records of
    the other principals and the lookup entries that name them as they
    were, and keeps the maps mirrored. *)
Theorem delete_token_frame u c :
  mirror c →
  ∃ c1, delete_token u c = (Ret (bool_decide (is_Some (_refresh_tokens c !! u))), c1)
    ∧ _refresh_tokens c1 !! u = None
    ∧ (∀ e, _refresh_tokens c !! u = Some e →
            _token_lookup c1 !! refresh_token e = None)
    ∧ (∀ u', u' ≠ u → _refresh_tokens c1 !! u' = _refresh_tokens c !! u')
    ∧ (∀ t' i, _token_lookup c !! t' = Some i → user_id i ≠ u →
               _token_lookup c1 !! t' = Some i)
    ∧ mirror c1.
Proof.
  intros Hm. unfold delete_token.
  assert (Hm1 : mirror (_invalidate_user_tokens u c).2).
  { destruct Hm as [Hs Hr]. split.
    - by apply invalidate_user_index_sound.
    - by apply invalidate_user_records_indexed. }
  destruct Hm as [Hs Hr].
  destruct (_refresh_tokens c !! u) as [e|] eqn:He.
  - pose proof (Hr _ _ He) as Hi.
    rewrite (invalidate_user_present _ _ _ _ He Hi) in *.
    eexists. split; [by rewrite bool_decide_eq_true_2 by eauto|].
    simpl. split_and!; [apply lookup_delete_eq| | | |done].
    + intros e' [= <-]. apply lookup_delete_eq.
    + intros u' Hne. by rewrite lookup_delete_ne.
    + intros t' i Hi' Hne. rewrite lookup_delete_ne; [done|].
      intros <-. rewrite Hi in Hi'. injection Hi' as <-. by apply Hne.
  - rewrite (invalidate_user_absent _ _ He) in *.
    exists c. split; [by rewrite bool_decide_eq_false_2 by (by intros [? ?])|].
    split_and!; done.
Qed.

Lemma delete_token_frame_witness :
  let c := run [SetToken 0 0 7 "seven" 60; SetToken 1 1 8 "eight" 60] init in
  ∃ c1, delete_token 7 c = (Ret (bool_decide (is_Some (_refresh_tokens c !! 7))), c1)
    ∧ _refresh_tokens c1 !! 7 = None
    ∧ (∀ e, _refresh_tokens c !! 7 = Some e →
            _token_lookup c1 !! refresh_token e = None)
    ∧ (∀ u', u' ≠ 7 → _refresh_tokens c1 !! u' = _refresh_tokens c !! u')
    ∧ (∀ t' i, _token_lookup c !! t' = Some i → user_id i ≠ 7 →
               _token_lookup c1 !! t' = Some i)
    ∧ mirror c1.
Proof.
  intros c. apply (delete_token_frame 7 c).
  apply run_mirror; [reflexivity|exact mirror_init].
Defined.

(** X5.  A lookup never raises, and repeating it at the same instant gives
    the same answer and changes nothing more: the eviction of an expired
    token happens once. *)
Theorem lookup_settles now t c :
  ∃ r c1, get_user_id_by_token now t c = (Ret r, c1)
    ∧ get_user_id_by_token now t c1 = (Ret r, c1).
Proof.
  destruct (_token_lookup c !! t) as [i|] eqn:Hi.
  - destruct (decide (now <= lk_expires_at i)) as [Hlive|Hexp].
    + rewrite (get_user_live _ _ _ _ Hi Hlive). eexists _, _. split; [done|].
      by rewrite (get_user_live _ _ _ _ Hi Hlive).
    + rewrite (get_user_expired _ _ _ _ Hi) by lia. eexists _, _. split; [done|].
      apply get_user_absent. simpl. apply lookup_delete_eq.
  - rewrite (get_user_absent _ _ _ Hi). eexists _, _. split; [done|].
    by apply get_user_absent.
Qed.

(** X6.  A sweep does not change what lookups answer: at the instant of the
    sweep or later, every token resolves after the sweep to what it
    resolved to without it, in any cache. *)
Theorem sweep_preserves_lookups now now2 t c :
  now <= now2 →
  (get_user_id_by_token now2 t (cleanup_expired_tokens now c).2).1
  = (get_user_id_by_token now2 t c).1.
Proof.
  intros Hle.
  destruct (cleanup_spec now c) as (c1 & c' & _ & -> & _ & Hlk & _). simpl.
  destruct (_token_lookup c !! t) as [i|] eqn:Hi.
  - destruct (decide (now <= lk_expires_at i)) as [Hlive|Hexp].
    + assert (Hi' : _token_lookup c' !! t = Some i).
      { rewrite Hlk. by apply map_lookup_filter_Some. }
      destruct (decide (now2 <= lk_expires_at i)).
      * by rewrite (get_user_live _ _ _ _ Hi), (get_user_live _ _ _ _ Hi').
      * rewrite (get_user_expired _ _ _ _ Hi), (get_user_expired _ _ _ _ Hi') by lia.
        done.
    + assert (Hi' : _token_lookup c' !! t = None).
      { rewrite Hlk. apply map_lookup_filter_None. right.
        intros i' Hi''. simpl. assert (i' = i) by congruence. subst. lia. }
      rewrite (get_user_absent _ _ _ Hi').
      by rewrite (get_user_expired _ _ _ _ Hi) by lia.
  - assert (Hi' : _token_lookup c' !! t = None).
    { rewrite Hlk. apply map_lookup_filter_None. by left. }
    by rewrite (get_user_absent _ _ _ Hi), (get_user_absent _ _ _ Hi').
Qed.

Lemma sweep_preserves_lookups_witness :
  let c := run [SetToken 0 0 1 "a" 5; SetToken 0 0 2 "b" 20] init in
  (get_user_id_by_token 12 "b" (cleanup_expired_tokens 10 c).2).1
  = (get_user_id_by_token 12 "b" c).1.
Proof. intros c. apply (sweep_preserves_lookups 10 12 "b" c). lia. Defined.

(** X7.  A second sweep at the same instant finds nothing: in a cache every
    lookup entry of which has its record, it returns 0 and changes
    nothing. *)
Theorem sweep_twice now c :
  index_sound c →
  ∃ n c1, cleanup_expired_tokens now c = (Ret n, c1)
    ∧ cleanup_expired_tokens now c1 = (Ret 0, c1).
Proof.
  intros Hs.
  destruct (cleanup_sound_spec now c Hs) as (c1 & Hrun & Hrf & Hlk).
  assert (Hs1 : index_sound c1).
  { pose proof (cleanup_index_sound now c Hs) as H. by rewrite Hrun in H. }
  destruct (cleanup_sound_spec now c1 Hs1) as (c2 & Hrun2 & Hrf2 & Hlk2).
  assert (Hnone : expired_records now c1 = ∅).
  { apply map_empty. intros u. apply map_lookup_filter_None. right.
    intros e He. simpl. rewrite Hrf in He.
    apply map_lookup_filter_Some in He as [_ He]. simpl in He. lia. }
  assert (c2 = c1) as ->.
  { destruct c1 as [r1 l1], c2 as [r2 l2]. simpl in *. f_equal.
    - rewrite Hrf2, Hrf. unfold live_records. simpl.
      apply map_filter_id. intros u e [_ He]%map_lookup_filter_Some. done.
    - rewrite Hlk2, Hlk. unfold live_entries. simpl.
      apply map_filter_id. intros t i [_ Hi]%map_lookup_filter_Some. done. }
  eexists _, c1. split; [exact Hrun|].
  by rewrite Hrun2, Hnone, map_size_empty.
Qed.

Lemma sweep_twice_witness :
  let c := run [SetToken 0 0 1 "a" 5; SetToken 0 0 2 "a" 7; SetToken 0 0 3 "c" 20] init in
  ∃ n c1, cleanup_expired_tokens 10 c = (Ret n, c1)
    ∧ cleanup_expired_tokens 10 c1 = (Ret 0, c1).
Proof.
  intros c. apply (sweep_twice 10 c). apply run_index_sound, index_sound_init.
Defined.

(** X8.  A sweep of any cache, mirrored or not, returns a count that is not
    negative; afterwards the lookup holds exactly the entries that were
    live, no expired record is left, and every record that is there was
    there before, unchanged. *)
Theorem sweep_any_cache now c :
  ∃ n c', cleanup_expired_tokens now c = (Ret n, c')
    ∧ 0 <= n
    ∧ _token_lookup c' = live_entries now c
    ∧ expired_records now c' = ∅
    ∧ ∀ u e, _refresh_tokens c' !! u = Some e →
             _refresh_tokens c !! u = Some e ∧ now <= expires_at e.
Proof.
  destruct (cleanup_spec now c) as (c1 & c' & Hloop & Hrun & _ & Hlk & Hrf).
  eexists _, c'. split; [exact Hrun|]. split_and!; [lia|done| |].
  - apply map_empty. intros u. apply map_lookup_filter_None. right.
    intros e He. simpl. rewrite Hrf in He.
    apply map_lookup_filter_Some in He as [_ He]. simpl in He. lia.
  - intros u e He. rewrite Hrf in He.
    apply map_lookup_filter_Some in He as [He Hlive]. split; [|done].
    assert (Hc1 : c1 = (cleanup_tokens_loop
              (filter (fun kv => lk_expires_at kv.2 < now)
                 (map_to_list (_token_lookup c))).*1 0 c).2) by (by rewrite Hloop).
    rewrite Hc1 in He. by apply tokens_loop_refresh_sub in He.
Qed.

(** X9.  Whatever operations ran on the cache since it was empty, also
    with tokens shared between principals and with operations that raised:
    when a lookup resolves a token to a principal, the record of that
    principal holds this very token and has not expired. *)
Theorem resolved_token_is_current ops now t u :
  (get_user_id_by_token now t (run ops init)).1 = Ret (Some u) →
  ∃ e, _refresh_tokens (run ops init) !! u = Some e
    ∧ refresh_token e = t ∧ now <= expires_at e.
Proof.
  pose proof (run_index_sound ops init index_sound_init) as Hs.
  set (c := run ops init) in *. intros Hget.
  destruct (_token_lookup c !! t) as [i|] eqn:Hi.
  - destruct (decide (now <= lk_expires_at i)) as [Hlive|Hexp].
    + rewrite (get_user_live _ _ _ _ Hi Hlive) in Hget. injection Hget as <-.
      destruct (Hs _ _ Hi) as (e & He & Htok & Hex).
      exists e. split_and!; [done..|lia].
    + by rewrite (get_user_expired _ _ _ _ Hi) in Hget by lia.
  - by rewrite (get_user_absent _ _ _ Hi) in Hget.
Qed.

Lemma resolved_token_is_current_witness :
  let ops := [SetToken 0 0 1 "tok" 60; SetToken 0 0 2 "tok" 60; DeleteToken 1;
              DeleteToken 2; SetToken 5 5 3 "tok" 60] in
  ∃ e, _refresh_tokens (run ops init) !! 3 = Some e
    ∧ refresh_token e = "tok" ∧ 10 <= expires_at e.
Proof.
  intros ops. apply (resolved_token_is_current ops 10 "tok" 3). reflexivity.
Defined.



End store_extras.

(** ** Further properties of the authentication protocol *)

Section protocol_extras.

Import Cache Spec Schemas Security Auth.

(** For a token whose type is not [refresh], [verify_token] does not look
    at the cache: it returns the decoded claims, or [None] when the codec
    raises [JWTError], and leaves the cache as it was. *)
Lemma verify_token_stateless J now token c :
  (Jose.jwt_decode J token = Raise JWTError →
   verify_token J now token c = (Ret None, c))
  ∧ (∀ payload,
       Jose.jwt_decode J token = Ret payload →
       eq_str (Jose.get payload "type" JNull) "refresh" = false →
       verify_token J now token c = (Ret (Some payload), c)).
Proof.
  unfold verify_token, ctry, cbind, lift, ret. split.
  - by intros ->.
  - by intros payload -> ->.
Qed.

(** X11.  For a token of type [refresh] whose subject ends in an integer
    [sid], [verify_token] returns the claims exactly when the lookup of the
    token yields [sid] and [sid] is not 0, and [None] otherwise; the cache
    is left as the lookup leaves it. *)
Theorem verify_token_refresh J now token payload sid c :
  Jose.jwt_decode J token = Ret payload →
  eq_str (Jose.get payload "type" JNull) "refresh" = true →
  Jose.subject_id payload ":" = Ret sid →
  ∃ r, verify_token J now token c = (Ret r, (get_user_id_by_token now token c).2)
    ∧ (r = Some payload ∨ r = None)
    ∧ (r = Some payload ↔
         (get_user_id_by_token now token c).1 = Ret (Some sid) ∧ sid ≠ 0).
Proof.
  intros Hdec Htype Hsub.
  unfold verify_token, ctry, cbind, lift, ret. rewrite Hdec, Htype.
  destruct (get_user_returns now token c) as [r Hr].
  destruct (get_user_id_by_token now token c) as [o c1]. simpl in Hr. subst o.
  simpl. destruct r as [uid|].
  - destruct (decide (uid = 0)) as [->|Huid].
    + exists None. split_and!; [done|by right|].
      split; [done|]. intros [[= <-] ?]. done.
    + assert (Hstep : ∀ (A : Type) (k1 k2 : A),
                match uid with 0 => k1 | _ => k2 end = k2).
      { intros. by destruct uid. }
      rewrite Hstep, Hsub. case_bool_decide as Hne.
      * exists None. split_and!; [done|by right|].
        split; [done|]. intros [[= ->] ?]. done.
      * subst sid. exists (Some payload). split_and!; [done|by left|].
        split; [done|]. done.
  - exists None. split_and!; [done|by right|]. split; [done|]. by intros [? ?].
Qed.

Lemma verify_token_refresh_witness :
  let c := (set_token 100 100 7 "refresh-alice" (days 30) init).2 in
  ∃ r, verify_token Scenario.codec 200 "refresh-alice" c
       = (Ret r, (get_user_id_by_token 200 "refresh-alice" c).2)
    ∧ (r = Some (Scenario.refresh_claims 100 7) ∨ r = None)
    ∧ (r = Some (Scenario.refresh_claims 100 7) ↔
         (get_user_id_by_token 200 "refresh-alice" c).1 = Ret (Some 7) ∧ 7 ≠ 0).
Proof.
  intros c.
  apply (verify_token_refresh Scenario.codec 200 "refresh-alice"
           (Scenario.refresh_claims 100 7) 7 c); reflexivity.
Defined.

(** X12.  [verify_token] catches [JWTError] only: for a token of type
    [refresh] that is the live lookup entry of a principal other than 0,
    what the parse of the subject raises leaves [verify_token]. *)
Theorem verify_token_lets_parse_errors_escape J now token payload i e c :
  Jose.jwt_decode J token = Ret payload →
  eq_str (Jose.get payload "type" JNull) "refresh" = true →
  _token_lookup c !! token = Some i → now <= lk_expires_at i →
  user_id i ≠ 0 →
  Jose.subject_id payload ":" = Raise e → e ≠ JWTError →
  verify_token J now token c = (Raise e, c).
Proof.
  intros Hdec Htype Hi Hlive Hid Hsub He.
  unfold verify_token, ctry, cbind, lift, ret. rewrite Hdec, Htype.
  rewrite (get_user_live _ _ _ _ Hi Hlive).
  assert (Hstep : ∀ (A : Type) (k1 k2 : A),
            match user_id i with 0 => k1 | _ => k2 end = k2).
  { intros. by destruct (user_id i). }
  rewrite Hstep, Hsub. by destruct e.
Qed.

Lemma verify_token_stateless_witness :
  verify_token Scenario.codec 200 "garbage" init = (Ret None, init)
  ∧ verify_token Scenario.codec 200 "access-alice" init
    = (Ret (Some (Scenario.access_claims 100 Scenario.alice)), init).
Proof.
  destruct (verify_token_stateless Scenario.codec 200 "garbage" init) as [H1 _].
  destruct (verify_token_stateless Scenario.codec 200 "access-alice" init) as [_ H2].
  split; [apply H1|apply H2]; reflexivity.
Defined.

Lemma verify_token_lets_parse_errors_escape_witness :
  let c := (set_token 100 100 7 "refresh-odd" 1000 init).2 in
  verify_token Extra.codec 200 "refresh-odd" c = (Raise ValueError, c).
Proof.
  intros c.
  apply (verify_token_lets_parse_errors_escape Extra.codec 200 "refresh-odd"
           Extra.odd_refresh (mkLookupEntry 7 1100) ValueError c);
    try reflexivity; try discriminate.
Defined.

(** X13.  The subject that the minting functions write parses back to the
    principal id, for every id: ["user:<id>"] in access tokens and
    ["refresh:<id>"] in refresh tokens, with either default of the two
    readers. *)
Theorem subject_round_trip J now user scopes uid delta dflt :
  Jose.subject_id (minted_claims J now user scopes) dflt = Ret (Models.user_id user)
  ∧ Jose.subject_id (refresh_to_encode J now uid delta) dflt = Ret uid.
Proof. split; [apply subject_id_minted|apply subject_id_refresh]. Qed.

Lemma py_in_strings scope l :
  py_in scope (JArr (JStr <$> l)) = Ret (bool_decide (scope ∈ l)).
Proof.
  unfold py_in. f_equal. induction l as [|s l IH].
  - symmetry. apply bool_decide_eq_false_2, not_elem_of_nil.
  - cbn [fmap list_fmap existsb eq_str]. fold (fmap JStr l). rewrite IH.
    destruct (decide (s = scope)) as [->|Hne].
    + rewrite (bool_decide_eq_true_2 (scope = scope)) by done.
      rewrite (bool_decide_eq_true_2 (scope ∈ scope :: l)) by (by left). done.
    + rewrite (bool_decide_eq_false_2 (s = scope)) by done. simpl.
      apply bool_decide_ext. rewrite elem_of_cons. intuition congruence.
Qed.

Lemma check_scopes_strings all_scopes l remaining :
  check_scopes all_scopes (JArr (JStr <$> l)) remaining =
    if forallb (fun s => bool_decide (s ∈ l)) remaining then Ret tt
    else Raise (HTTPException HTTP_403_FORBIDDEN "Not enough permissions"
                  (authenticate_value all_scopes)).
Proof.
  induction remaining as [|s rest IH]; [done|].
  cbn [check_scopes forallb]. rewrite py_in_strings. simpl.
  destruct (bool_decide (s ∈ l)); simpl; [apply IH|done].
Qed.

(** X14.  [get_current_user] on a token minted for a principal whose id is
    not 0 is decided by the principal query, then by the scopes.  What the
    query raises leaves [get_current_user] (as the 401 exception when it is
    one of the two caught classes); without a row the 401 exception is
    raised; with a row the scope check is set inclusion: the row is
    returned when every required scope is among the scopes the token was
    minted with ([user] when it was minted with none), and the 403
    ["Not enough permissions"] exception is raised otherwise.  The query
    as shipped raises [AttributeError], so there the scopes are not
    reached. *)
Theorem minted_token_scope_check J D required token now user scopes :
  Jose.jwt_decode J token = Ret (minted_claims J now user scopes) →
  Models.user_id user ≠ 0 →
  get_current_user J D required token =
    match query_active_user D (Models.user_id user) with
    | Ret (Some row) =>
        if forallb (fun s => bool_decide (s ∈ Extra.granted scopes)) required
        then Ret row
        else Raise (HTTPException HTTP_403_FORBIDDEN "Not enough permissions"
                      (authenticate_value required))
    | Ret None => Raise (credentials_exception required)
    | Raise JWTError | Raise ValidationError => Raise (credentials_exception required)
    | Raise e => Raise e
    end.
Proof.
  intros Hdec Hid. unfold get_current_user. rewrite Hdec. simpl.
  rewrite subject_id_minted. simpl.
  rewrite bool_decide_eq_false_2 by done.
  change (Jose.get (minted_claims J now user scopes) "type" (JStr "access"))
    with (JStr "access").
  simpl.
  destruct (query_active_user D (Models.user_id user)) as [[row|]|e];
    [|done|by destruct e].
  simpl.
  assert (Jose.get (minted_claims J now user scopes) "scopes" (JArr [])
          = JArr (JStr <$> Extra.granted scopes)) as ->.
  { by destruct scopes. }
  rewrite check_scopes_strings. by destruct (forallb _ _).
Qed.

Lemma minted_token_scope_check_witness :
  get_current_user Scenario.codec (Queries.shipped Scenario.deps) ["manager"; "user"]
    "access-alice"
  = Raise AttributeError.
Proof.
  exact (minted_token_scope_check Scenario.codec (Queries.shipped Scenario.deps)
           ["manager"; "user"] "access-alice" 100 Scenario.alice
           ["user"; "admin"; "manager"] eq_refl ltac:(discriminate)).
Defined.

End protocol_extras.

(** ** Role permissions *)

Section permission_facts.

Import Permissions.

Lemma lower_empty s : lower s = "" → s = "".
Proof. by destruct s. Qed.

Lemma role_permissions_lookup role :
  ROLE_PERMISSIONS !! role =
    if bool_decide (role = "admin")
    then Some ["read"; "write"; "update"; "delete"; "admin"]
    else if bool_decide (role = "manager") then Some ["read"; "write"; "update"]
    else if bool_decide (role = "user") then Some ["read"]
    else None.
Proof.
  unfold ROLE_PERMISSIONS.
  repeat (case_bool_decide; [subst role; reflexivity|]).
  rewrite !lookup_insert_ne by done. by rewrite lookup_singleton_ne.
Qed.

(** Case split on the lower-cased role, evaluating the lookup in the
    permission table. *)
Ltac role_cases role :=
  destruct (decide (role = "admin")) as [->|?];
  [|destruct (decide (role = "manager")) as [->|?];
    [|destruct (decide (role = "user")) as [->|?]]];
  rewrite ?(bool_decide_eq_false_2 (role = "admin")),
    ?(bool_decide_eq_false_2 (role = "manager")),
    ?(bool_decide_eq_false_2 (role = "user")) by done;
  simpl.

(** X15.  What the three permission dependencies let through:
    [require_admin] needs the role [admin], [require_manager] the role
    [admin] or [manager], [require_read] one of the three known roles; the
    role is compared in lower case, and a missing principal or an empty
    role has no permission at all. *)
Theorem permission_gates user :
  let role := lower (Models.user_role user) in
  (has_permission (Some user) require_admin_permission = true ↔ role = "admin")
  ∧ (has_permission (Some user) require_manager_permission = true ↔
       role = "admin" ∨ role = "manager")
  ∧ (has_permission (Some user) require_read_permission = true ↔
       role = "admin" ∨ role = "manager" ∨ role = "user")
  ∧ (∀ permission, has_permission None permission = false)
  ∧ (∀ permission, Models.user_role user = "" →
                   has_permission (Some user) permission = false).
Proof.
  intros role. unfold has_permission.
  assert (Hempty : Models.user_role user = "" → role ≠ "admin" ∧ role ≠ "manager"
                                                 ∧ role ≠ "user").
  { unfold role. by intros ->. }
  fold role. rewrite role_permissions_lookup. clearbody role.
  unfold require_admin_permission, require_manager_permission,
    require_read_permission.
  split_and!; try done.
  - case_bool_decide as He; [destruct (Hempty He) as (? & ? & ?); by split|].
    clear Hempty. role_cases role; intuition congruence.
  - case_bool_decide as He;
      [destruct (Hempty He) as (? & ? & ?); split; [done|intuition]|].
    clear Hempty. role_cases role; intuition congruence.
  - case_bool_decide as He;
      [destruct (Hempty He) as (? & ? & ?); split; [done|intuition]|].
    clear Hempty. role_cases role; intuition congruence.
  - intros permission ->. by rewrite bool_decide_eq_true_2.
Qed.

(** X16.  Permissions are inherited upwards, and only the three known
    roles have any: a principal that has a permission has one of the roles
    [admin], [manager], [user] (in any spelling of upper and lower case),
    and the permission is then also had by every principal one or two
    steps up, from [user] to [manager] to [admin]. *)
Theorem permission_hierarchy user1 user2 permission :
  has_permission (Some user1) permission = true →
  lower (Models.user_role user1) ∈ ["admin"; "manager"; "user"]
  ∧ (lower (Models.user_role user1) = "user"
     ∧ lower (Models.user_role user2) = "manager"
     ∨ lower (Models.user_role user1) = "manager"
       ∧ lower (Models.user_role user2) = "admin"
     ∨ lower (Models.user_role user1) = "user"
       ∧ lower (Models.user_role user2) = "admin" →
     has_permission (Some user2) permission = true).
Proof.
  unfold has_permission. intros H1.
  case_bool_decide; [done|].
  rewrite role_permissions_lookup in H1.
  split.
  - set (role := lower (Models.user_role user1)) in *. clearbody role.
    revert H1. role_cases role; intros H1; [set_solver..|].
    discriminate H1.
  - intros Hroles.
    assert (Hne : Models.user_role user2 ≠ "").
    { intros He. rewrite He in Hroles. simpl in Hroles. intuition congruence. }
    rewrite (bool_decide_eq_false_2 _ Hne). rewrite role_permissions_lookup.
    destruct Hroles as [[Hr1 Hr2]|[[Hr1 Hr2]|[Hr1 Hr2]]]; rewrite Hr1 in H1;
      rewrite Hr2; simpl in *; apply bool_decide_eq_true in H1;
      rewrite ?elem_of_cons, ?elem_of_nil in H1;
      apply bool_decide_eq_true;
      rewrite ?elem_of_cons, ?elem_of_nil; intuition.
Qed.

Lemma permission_hierarchy_witness :
  lower (Models.user_role Scenario.bob) ∈ ["admin"; "manager"; "user"]
  ∧ (lower (Models.user_role Scenario.bob) = "user"
     ∧ lower (Models.user_role Scenario.alice) = "manager"
     ∨ lower (Models.user_role Scenario.bob) = "manager"
       ∧ lower (Models.user_role Scenario.alice) = "admin"
     ∨ lower (Models.user_role Scenario.bob) = "user"
       ∧ lower (Models.user_role Scenario.alice) = "admin" →
     has_permission (Some Scenario.alice) "read" = true).
Proof.
  apply (permission_hierarchy Scenario.bob Scenario.alice "read"). reflexivity.
Defined.

(** X17.  Scopes and permissions disagree on the case of the role:
    [has_permission] lowers the role before it looks it up, the handlers
    compare it with ["admin"] as it is.  A principal whose role is
    [admin] in another spelling has the permission [admin] and is given
    the scope [user] only. *)
Theorem role_spelling_mismatch user :
  lower (Models.user_role user) = "admin" →
  Models.user_role user ≠ "admin" →
  has_permission (Some user) "admin" = true
  ∧ Auth.role_scopes (Models.user_role user) = ["user"].
Proof.
  intros Hlow Hne. split.
  - unfold has_permission.
    rewrite bool_decide_eq_false_2.
    + by rewrite Hlow.
    + intros He. by rewrite He in Hlow.
  - unfold Auth.role_scopes.
    rewrite bool_decide_eq_false_2 by done.
    rewrite bool_decide_eq_false_2; [done|].
    intros He. by rewrite He in Hlow.
Qed.

Lemma role_spelling_mismatch_witness :
  let user := Models.mkUser 9 "U0009" "carol" "x" "Admin" 1 1 None None in
  has_permission (Some user) "admin" = true
  ∧ Auth.role_scopes (Models.user_role user) = ["user"].
Proof.
  intros user. apply (role_spelling_mismatch user); [reflexivity|discriminate].
Defined.

End permission_facts.

(** ** Further properties of the handlers *)

Section handler_extras.

Import Cache Spec Schemas Security Auth Account.

Lemma set_token_raise_state now created u t d c e c1 :
  set_token now created u t d c = (Raise e, c1) → c1 = c.
Proof.
  unfold set_token, _invalidate_user_tokens.
  destruct (_refresh_tokens c !! u) as [r|]; [|done].
  destruct (_token_lookup c !! Cache.refresh_token r); [done|]. by intros [= _ <-].
Qed.

Lemma get_user_some_state now t c u c1 :
  get_user_id_by_token now t c = (Ret (Some u), c1) →
  c1 = c ∧ ∃ i, _token_lookup c !! t = Some i ∧ user_id i = u
                ∧ now <= lk_expires_at i.
Proof.
  unfold get_user_id_by_token.
  destruct (_token_lookup c !! t) as [i|] eqn:Hi; [|done].
  destruct (Z.ltb_spec (lk_expires_at i) now).
  - by destruct (_invalidate_token t c) as [[]].
  - intros [= <- <-]. split; [done|]. by exists i.
Qed.

(** The principal queries as shipped do not get as far as the database. *)
Lemma shipped_queries D :
  (∀ uid, query_active_user (Queries.shipped D) uid = Raise AttributeError)
  ∧ (∀ name, query_login_user (Queries.shipped D) name = Raise AttributeError).
Proof. split; reflexivity. Qed.

Lemma get_current_user_shipped J D required token :
  ∃ e, get_current_user J (Queries.shipped D) required token = Raise e.
Proof.
  unfold get_current_user.
  destruct (Jose.jwt_decode J token) as [payload|e]; [|destruct e; simpl; eauto].
  simpl.
  destruct (Jose.subject_id payload "") as [uid|e]; [|destruct e; simpl; eauto].
  simpl. case_bool_decide; [eauto|].
  destruct (negb (eq_str (Jose.get payload "type" (JStr "access")) "access"));
    simpl; eauto.
Qed.

(** Without an answer from the principal query, a refresh ends in the
    ["Invalid refresh token"] result. *)
Lemma refresh_token_without_rows J D now_lookup now_access token c :
  (∀ uid, is_Ret (query_active_user D uid) = false) →
  ∃ c', refresh_token J D now_lookup now_access token c
        = (Ret invalid_refresh_token, c')
    ∧ (c' = (get_user_id_by_token now_lookup token c).2 ∨ c' = c).
Proof.
  intros Hquery.
  unfold refresh_token, verify_token, ctry, cbind, lift, ret.
  destruct (Jose.jwt_decode J token) as [payload|e];
    [|destruct e; simpl; eexists; (split; [reflexivity|]); auto].
  destruct (eq_str (Jose.get payload "type" JNull) "refresh") eqn:Htype;
    [|simpl; rewrite Htype, orb_true_r; simpl; eexists;
      (split; [reflexivity|]); auto].
  destruct (get_user_id_by_token now_lookup token c) as [[[uid|]|e] c1] eqn:Hget;
    [|simpl; eexists; (split; [reflexivity|]); auto
     |destruct e; simpl; eexists; (split; [reflexivity|]); auto].
  destruct (decide (uid = 0)) as [->|Huid];
    [simpl; eexists; (split; [reflexivity|]); auto|].
  assert (Hstep : ∀ (A : Type) (k1 k2 : A),
            match uid with 0 => k1 | _ => k2 end = k2).
  { intros. by destruct uid. }
  rewrite Hstep. clear Hstep.
  destruct (Jose.subject_id payload ":") as [sid|e] eqn:Hsub;
    [|destruct e; simpl; eexists; (split; [reflexivity|]); auto].
  case_bool_decide as Hne;
    [simpl; eexists; (split; [reflexivity|]); auto|].
  subst sid. simpl. rewrite Htype. simpl.
  case_bool_decide;
    [simpl; eexists; (split; [reflexivity|]); auto|].
  simpl. rewrite Hsub. simpl.
  rewrite bool_decide_eq_false_2 by done.
  specialize (Hquery uid).
  destruct (query_active_user D uid) as [row|e]; [done|].
  simpl. eexists. split; [reflexivity|]. auto.
Qed.



(** X19.  A login changes the cache only when it succeeds: when it returns
    an error result, which is then the ["Incorrect username or password"]
    result, and when it raises, the cache is what it was. *)
Theorem login_failure_leaves_cache J D na nr np nc username password c :
  (∀ r, (login J D na nr np nc username password c).1 = Ret r →
        isSuccess r = false →
        r = incorrect_credentials
        ∧ (login J D na nr np nc username password c).2 = c)
  ∧ (∀ e, (login J D na nr np nc username password c).1 = Raise e →
          (login J D na nr np nc username password c).2 = c).
Proof.
  unfold login, cbind, lift, ret.
  destruct (query_login_user D username) as [[user|]|e];
    [|split; [by intros r [= <-]|done]|split; done].
  destruct (verify_password D _ _) as [[|]|e]; simpl;
    [|split; [by intros r [= <-]|done]|split; done].
  destruct (set_token _ _ _ _ _ c) as [[[]|e] c0] eqn:Hset; simpl.
  - split; [|done]. by intros r [= <-].
  - split; [done|]. intros _ _. by apply set_token_raise_state in Hset.
Qed.

(** X20.  [refresh_token] as shipped never refreshes: for every token,
    registered and unexpired or not, the result is the
    ["Invalid refresh token"] result - the [AttributeError] of the query is
    caught by [except Exception] - never a success and never the
    ["User not found"] result; the cache afterwards is the cache before, or
    that cache with the presented token invalidated. *)
Theorem refresh_as_shipped J D now_lookup now_access token c :
  ∃ c', refresh_token J (Queries.shipped D) now_lookup now_access token c
        = (Ret invalid_refresh_token, c')
    ∧ (c' = c ∨ c' = (_invalidate_token token c).2).
Proof.
  destruct (refresh_token_without_rows J (Queries.shipped D) now_lookup now_access
              token c) as (c' & Hrun & Hstate); [done|].
  exists c'. split; [done|].
  destruct Hstate as [-> | ->]; [|by left].
  destruct (get_user_state now_lookup token c) as [-> | ->]; auto.
Qed.

Lemma login_failure_leaves_cache_witness :
  let c := (set_token 100 100 7 "refresh-alice" (days 30) init).2 in
  let orphaned := run [SetToken 0 0 7 "tok" 60; SetToken 0 0 8 "tok" 60;
                       DeleteToken 7] init in
  (incorrect_credentials = incorrect_credentials
   ∧ (login Scenario.codec Scenario.deps 1 2 3 4 "alice" "wrong" c).2 = c)
  ∧ (login Scenario.codec Scenario.deps 1 2 3 4 "bob" "hunter2" orphaned).2
    = orphaned.
Proof.
  intros c orphaned. split.
  - apply (proj1 (login_failure_leaves_cache Scenario.codec Scenario.deps 1 2 3 4
                    "alice" "wrong" c) incorrect_credentials); reflexivity.
  - apply (proj2 (login_failure_leaves_cache Scenario.codec Scenario.deps 1 2 3 4
                    "bob" "hunter2" orphaned) KeyError). reflexivity.
Defined.

(** [refresh_token] returns one of three results, and changes the cache
    through the lookup of the token only. *)
Lemma refresh_token_results J D now_lookup now_access token c :
  ∃ r c', refresh_token J D now_lookup now_access token c = (Ret r, c')
    ∧ (c' = (get_user_id_by_token now_lookup token c).2 ∨ c' = c)
    ∧ (r = invalid_refresh_token
       ∨ r = result_error "User not found" HTTP_404_NOT_FOUND
       ∨ isSuccess r = true).
Proof.
  unfold refresh_token, verify_token, ctry, cbind, lift, ret.
  destruct (Jose.jwt_decode J token) as [payload|e];
    [|destruct e; simpl; eexists _, _; (split; [reflexivity|]); auto].
  destruct (eq_str (Jose.get payload "type" JNull) "refresh") eqn:Htype;
    [|simpl; rewrite Htype, orb_true_r; simpl; eexists _, _;
      (split; [reflexivity|]); auto].
  destruct (get_user_id_by_token now_lookup token c) as [[[uid|]|e] c1] eqn:Hget;
    [|simpl; eexists _, _; (split; [reflexivity|]); auto
     |destruct e; simpl; eexists _, _; (split; [reflexivity|]); auto].
  destruct (decide (uid = 0)) as [->|Huid];
    [simpl; eexists _, _; (split; [reflexivity|]); auto|].
  assert (Hstep : ∀ (A : Type) (k1 k2 : A),
            match uid with 0 => k1 | _ => k2 end = k2).
  { intros. by destruct uid. }
  rewrite Hstep. clear Hstep.
  destruct (Jose.subject_id payload ":") as [sid|e] eqn:Hsub;
    [|destruct e; simpl; eexists _, _; (split; [reflexivity|]); auto].
  case_bool_decide as Hne;
    [simpl; eexists _, _; (split; [reflexivity|]); auto|].
  subst sid. simpl. rewrite Htype. simpl.
  case_bool_decide;
    [simpl; eexists _, _; (split; [reflexivity|]); auto|].
  simpl. rewrite Hsub. simpl.
  rewrite bool_decide_eq_false_2 by done.
  destruct (query_active_user D uid) as [[user|]|e] eqn:Hq;
    simpl; eexists _, _; (split; [reflexivity|]); auto.
Qed.

(** X21.  What a refresh can and cannot do: it never raises; its result is
    a success, the 400 ["Invalid refresh token"] result or the 404
    ["User not found"] result, never the ["Invalid token format"] result;
    and the cache afterwards is the cache before, or that cache with the
    presented token invalidated - a refresh adds nothing and rotates
    nothing. *)
Theorem refresh_outcomes J D now_lookup now_access token c :
  ∃ r c', refresh_token J D now_lookup now_access token c = (Ret r, c')
    ∧ (c' = c ∨ c' = (_invalidate_token token c).2)
    ∧ (isSuccess r = true → c' = c)
    ∧ (r = invalid_refresh_token
       ∨ r = result_error "User not found" HTTP_404_NOT_FOUND
       ∨ isSuccess r = true)
    ∧ r ≠ result_error "Invalid token format" HTTP_400_BAD_REQUEST.
Proof.
  destruct (refresh_token_results J D now_lookup now_access token c)
    as (r & c' & Hrun & Hstate & Hres).
  exists r, c'. split_and!; [done| | |done|].
  - destruct Hstate as [-> | ->]; [|by left].
    destruct (get_user_state now_lookup token c) as [-> | ->]; auto.
  - intros Hok.
    destruct (refresh_token_success_inv _ _ _ _ _ _ _ _ Hrun Hok)
      as (payload & uid & user & _ & _ & Hget & _).
    by apply get_user_some_state in Hget as [-> _].
  - destruct Hres as [-> | [-> | Hok]]; [done..|]. intros ->. done.
Qed.

(** X22.  An access token cannot refresh: a token that decodes to claims as
    the handlers mint them for access is answered with the
    ["Invalid refresh token"] result, and the cache is not touched. *)
Theorem access_token_cannot_refresh J D now_lookup now_access token now user scopes c :
  Jose.jwt_decode J token = Ret (minted_claims J now user scopes) →
  refresh_token J D now_lookup now_access token c = (Ret invalid_refresh_token, c).
Proof.
  intros Hdec. unfold refresh_token, verify_token, ctry, cbind, lift, ret.
  rewrite Hdec.
  change (eq_str (Jose.get (minted_claims J now user scopes) "type" JNull) "refresh")
    with false.
  simpl.
  change (eq_str (Jose.get (minted_claims J now user scopes) "type" JNull) "refresh")
    with false.
  by rewrite orb_true_r.
Qed.

Lemma access_token_cannot_refresh_witness :
  let c := (set_token 100 100 7 "access-alice" (days 30) init).2 in
  refresh_token Scenario.codec Scenario.deps 200 200 "access-alice" c
  = (Ret invalid_refresh_token, c).
Proof.
  intros c.
  apply (access_token_cannot_refresh Scenario.codec Scenario.deps 200 200
           "access-alice" 100 Scenario.alice
           (role_scopes (Models.user_role Scenario.alice)) c).
  reflexivity.
Defined.

(** X23.  No handler behind [Security(get_current_user, ...)] runs as
    shipped: for every bearer token [get_current_user] raises, so the
    logout endpoint ends in that exception and the cache is left as it
    was - a session in the cache is not revoked by a logout request. *)
Theorem logout_as_shipped J D token c :
  (∃ e, logout_request J (Queries.shipped D) token c = (Raise e, c))
  ∧ ∀ (A : Type) (handler : Models.User → Cache.M A),
      ∃ e, authorised J (Queries.shipped D) token handler c = (Raise e, c).
Proof.
  assert (Hany : ∀ (A : Type) (handler : Models.User → Cache.M A),
            ∃ e, authorised J (Queries.shipped D) token handler c = (Raise e, c)).
  { intros A handler. unfold authorised, cbind, lift.
    destruct (get_current_user_shipped J D ["user"] token) as [e ->]. by exists e. }
  split; [apply Hany|exact Hany].
Qed.

(** X24.  The logout endpoint runs behind [get_current_user]: when that
    raises, the exception is the outcome and the cache is not touched, so
    the session stays; when it returns a principal whose record is
    indexed, the logout succeeds and leaves no record for the principal,
    and a second logout succeeds again. *)
Theorem logout_behind_access_token J D token c :
  (∀ e, get_current_user J D ["user"] token = Raise e →
        logout_request J D token c = (Raise e, c))
  ∧ (∀ user,
       get_current_user J D ["user"] token = Ret user →
       record_indexed c (Models.user_id user) →
       ∃ c1, logout_request J D token c
             = (Ret (result_success (Message "Successfully logged out")), c1)
         ∧ _refresh_tokens c1 !! Models.user_id user = None
         ∧ logout_request J D token c1
           = (Ret (result_success (Message "Successfully logged out")), c1)).
Proof.
  unfold logout_request, authorised, logout, cbind, lift, ret, delete_token. split.
  - by intros e ->.
  - intros user -> Hidx.
    destruct (invalidate_user_returns c _ Hidx) as [b Hb].
    pose proof (invalidate_user_post c (Models.user_id user)) as [_ Hnone].
    destruct (_invalidate_user_tokens (Models.user_id user) c) as [o c1].
    simpl in *. subst o. specialize (Hnone eq_refl).
    exists c1. split_and!; [done..|].
    by rewrite (invalidate_user_absent _ _ Hnone).
Qed.

Lemma logout_behind_access_token_witness :
  let c := (set_token 100 100 7 "refresh-alice" (days 30) init).2 in
  logout_request Scenario.codec Scenario.deps "garbage" c
  = (Raise (credentials_exception ["user"]), c)
  ∧ ∃ c1, logout_request Scenario.codec Scenario.deps "access-alice" c
          = (Ret (result_success (Message "Successfully logged out")), c1)
      ∧ _refresh_tokens c1 !! Models.user_id Scenario.alice = None
      ∧ logout_request Scenario.codec Scenario.deps "access-alice" c1
        = (Ret (result_success (Message "Successfully logged out")), c1).
Proof.
  intros c. split.
  - apply (proj1 (logout_behind_access_token Scenario.codec Scenario.deps
                    "garbage" c)). reflexivity.
  - apply (proj2 (logout_behind_access_token Scenario.codec Scenario.deps
                    "access-alice" c) Scenario.alice); [reflexivity|].
    apply mirror_record_indexed.
    apply (run_mirror [SetToken 100 100 7 "refresh-alice" (days 30)] init);
      [reflexivity|exact mirror_init].
Defined.

(** X25.  [change_password]: when the current password does not verify, the
    result is the ["Current password is incorrect"] error and neither the
    principal nor the cache changes.  When it verifies and the hash and the
    commit go through, the principal carries the new hash, its record is
    gone from the cache and the refresh token it held is refused from then
    on.  When the commit raises, the session is not revoked. *)
Theorem change_password_revokes D S current_password new_password user c :
  let presented :=
    if bool_decide (String.length current_password ≠ 32%nat)
    then md5_hex D current_password else current_password in
  let chosen :=
    if bool_decide (String.length new_password = 32%nat)
    then new_password else md5_hex D new_password in
  (verify_password D presented (Models.password user) = Ret false →
   change_password D S current_password new_password user c
   = (Ret (result_error "Current password is incorrect" HTTP_400_BAD_REQUEST, user), c))
  ∧ (∀ hashed,
       verify_password D presented (Models.password user) = Ret true →
       get_password_hash S chosen = Ret hashed →
       commit S (with_password user hashed) = Ret tt →
       record_indexed c (Models.user_id user) →
       ∃ c1, change_password D S current_password new_password user c
             = (Ret (result_success (Message "Password updated successfully"),
                     with_password user hashed), c1)
         ∧ _refresh_tokens c1 !! Models.user_id user = None
         ∧ ∀ J e nl na,
             _refresh_tokens c !! Models.user_id user = Some e →
             refresh_token J D nl na (Cache.refresh_token e) c1
             = (Ret invalid_refresh_token, c1))
  ∧ (∀ hashed e,
       verify_password D presented (Models.password user) = Ret true →
       get_password_hash S chosen = Ret hashed →
       commit S (with_password user hashed) = Raise e →
       change_password D S current_password new_password user c = (Raise e, c)).
Proof.
  intros presented chosen.
  unfold change_password, cbind, lift, ret, delete_token.
  fold presented chosen. split_and!.
  - by intros ->.
  - intros hashed -> -> Hcommit Hidx. simpl. rewrite Hcommit.
    change (Models.user_id (with_password user hashed)) with (Models.user_id user).
    destruct (invalidate_user_returns c _ Hidx) as [b Hb].
    pose proof (invalidate_user_post c (Models.user_id user)) as [Hgone Hnone].
    destruct (_invalidate_user_tokens (Models.user_id user) c) as [o c1].
    simpl in *. subst o. specialize (Hnone eq_refl).
    exists c1. split_and!; [done..|].
    intros J e nl na He. apply refresh_token_absent. by apply Hgone.
  - intros hashed e -> -> Hcommit. simpl. by rewrite Hcommit.
Qed.

Lemma change_password_revokes_witness :
  let c := (set_token 100 100 7 "refresh-alice" (days 30) init).2 in
  change_password Scenario.deps Extra.persistence "wrong" "fresh" Scenario.alice c
  = (Ret (result_error "Current password is incorrect" HTTP_400_BAD_REQUEST,
          Scenario.alice), c)
  ∧ (∃ c1, change_password Scenario.deps Extra.persistence "secret" "fresh"
            Scenario.alice c
          = (Ret (result_success (Message "Password updated successfully"),
                  with_password Scenario.alice "{md5:fresh}"), c1)
      ∧ _refresh_tokens c1 !! Models.user_id Scenario.alice = None
      ∧ ∀ J e nl na,
          _refresh_tokens c !! Models.user_id Scenario.alice = Some e →
          refresh_token J Scenario.deps nl na (Cache.refresh_token e) c1
          = (Ret invalid_refresh_token, c1))
  ∧ change_password Scenario.deps Extra.failing_persistence "secret" "fresh"
      Scenario.alice c
    = (Raise (OtherError "OperationalError"), c).
Proof.
  intros c.
  destruct (change_password_revokes Scenario.deps Extra.persistence "wrong" "fresh"
              Scenario.alice c) as (Hwrong & _ & _).
  destruct (change_password_revokes Scenario.deps Extra.persistence "secret" "fresh"
              Scenario.alice c) as (_ & Hright & _).
  destruct (change_password_revokes Scenario.deps Extra.failing_persistence "secret"
              "fresh" Scenario.alice c) as (_ & _ & Hfails).
  split_and!.
  - apply Hwrong. reflexivity.
  - apply (Hright "{md5:fresh}"); try reflexivity.
    apply mirror_record_indexed.
    apply (run_mirror [SetToken 100 100 7 "refresh-alice" (days 30)] init);
      [reflexivity|exact mirror_init].
  - apply (Hfails "{md5:fresh}"); reflexivity.
Defined.

End handler_extras.

(** ** Password utilities *)

Section hash_facts.

Import Spec Hash Extra.

Lemma append_cons a s q : String a s +:+ q = String a (s +:+ q).
Proof. reflexivity. Qed.

Lemma any_char_append p s q :
  any_char p (s +:+ q) = any_char p s || any_char p q.
Proof.
  induction s as [|a s IH]; [done|].
  rewrite append_cons. cbn [any_char]. by rewrite IH, orb_assoc.
Qed.

Lemma length_append s q :
  String.length (s +:+ q) = (String.length s + String.length q)%nat.
Proof.
  induction s as [|a s IH]; [done|].
  rewrite append_cons. cbn [String.length]. by rewrite IH.
Qed.

Lemma strong_iff password :
  is_strong_password password = (true, "") ↔
  (8 <= String.length password)%nat
  ∧ any_char is_upper password = true ∧ any_char is_lower password = true
  ∧ any_char is_digit password = true ∧ any_char is_special password = true.
Proof.
  unfold is_strong_password.
  destruct (Nat.ltb_spec (String.length password) 8);
    [split; [done|intros [? _]; lia]|].
  destruct (any_char is_upper password); [|split; [done|intuition congruence]].
  destruct (any_char is_lower password); [|split; [done|intuition congruence]].
  destruct (any_char is_digit password); [|split; [done|intuition congruence]].
  destruct (any_char is_special password); [|split; [done|intuition congruence]].
  done.
Qed.

(** X26.  [is_strong_password] accepts exactly when it returns the empty
    message, and a password it accepts stays accepted when characters are
    added in front of it or behind it. *)
Theorem strong_password_extends password :
  ((is_strong_password password).1 = true ↔ (is_strong_password password).2 = "")
  ∧ (is_strong_password password = (true, "") →
     ∀ more, is_strong_password (password +:+ more) = (true, "")
             ∧ is_strong_password (more +:+ password) = (true, "")).
Proof.
  split.
  - unfold is_strong_password.
    repeat (match goal with |- context [if ?b then _ else _] => destruct b end;
            [by split|]); by split.
  - intros (Hlen & Hu & Hl & Hd & Hs)%strong_iff more.
    split; apply strong_iff; rewrite length_append, !any_char_append;
      rewrite Hu, Hl, Hd, Hs, ?orb_true_r; (split; [lia|done]).
Qed.

Lemma strong_password_extends_witness :
  is_strong_password ("Abcdef1!" +:+ " and more") = (true, "")
  ∧ is_strong_password (" and more" +:+ "Abcdef1!") = (true, "").
Proof.
  apply (proj2 (strong_password_extends "Abcdef1!")). reflexivity.
Defined.

Lemma split_without sep s : without_char sep s = true → split sep s = [s].
Proof.
  unfold without_char. induction s as [|a s IH]; [done|].
  cbn [all_chars split]. intros [Ha Hs]%andb_true_iff.
  apply negb_true_iff in Ha. by rewrite Ha, (IH Hs).
Qed.

Lemma is_substring_cons needle a hay :
  is_substring needle hay = true → is_substring needle (String a hay) = true.
Proof. intros H. cbn [is_substring]. by rewrite H, orb_true_r. Qed.

(** X27.  Hash, then verify: the string that [hash_password] returns for a
    password and a salt is accepted by [verify_password] for that password
    and salt, and refused for a password whose derived key differs;
    this for a derived key whose text contains neither [:] nor [$], as
    base64 text does not. *)
Theorem hash_then_verify P password salt hashed_b64 :
  pbkdf2_b64 P HASH_ALGORITHM password salt HASH_ITERATIONS = Ret hashed_b64 →
  without_char ":" hashed_b64 = true →
  without_char "$" hashed_b64 = true →
  ∃ stored,
    hash_password P password (Some salt) = Ret (stored, salt)
    ∧ verify_password P stored password salt = Ret true
    ∧ ∀ other other_b64,
        pbkdf2_b64 P HASH_ALGORITHM other salt HASH_ITERATIONS = Ret other_b64 →
        other_b64 ≠ hashed_b64 →
        verify_password P stored other salt = Ret false.
Proof.
  intros Hkey Hcolon Hdollar.
  unfold hash_password. rewrite Hkey. eexists. split; [reflexivity|].
  change ("pbkdf2:" +:+ HASH_ALGORITHM +:+ ":" +:+ py_str HASH_ITERATIONS
            +:+ "$" +:+ hashed_b64)
    with ("pbkdf2:sha256:" +:+ String "1" (String "0" (String "0" (String "0"
            (String "0" (String "0" (String "$" hashed_b64))))))).
  set (tail := String "1" _).
  assert (Htail : split ":" tail = [tail]).
  { unfold tail. cbn [split Ascii.eqb Bool.eqb]. by rewrite (split_without _ _ Hcolon). }
  assert (Hparts : split ":" ("pbkdf2:sha256:" +:+ tail) = ["pbkdf2"; "sha256"; tail]).
  { rewrite !append_cons. cbn [split Ascii.eqb Bool.eqb String.append].
    change ("" +:+ tail) with tail. by rewrite Htail. }
  assert (Hsub : is_substring ":" ("pbkdf2:sha256:" +:+ tail) = true).
  { rewrite !append_cons. do 6 apply is_substring_cons. reflexivity. }
  assert (Hinner : split "$" tail = ["100000"; hashed_b64]).
  { unfold tail. cbn [split Ascii.eqb Bool.eqb]. by rewrite (split_without _ _ Hdollar). }
  assert (Hverify : ∀ pw, verify_password P ("pbkdf2:sha256:" +:+ tail) pw salt =
            Py.bind (pbkdf2_b64 P "sha256" pw salt 100000)
                    (fun b => Ret (bool_decide (b = hashed_b64)))).
  { intros pw. unfold verify_password. rewrite Hsub, Hparts. cbn [negb unpack3 Py.bind].
    rewrite Hinner. reflexivity. }
  split.
  - rewrite Hverify. change "sha256" with HASH_ALGORITHM.
    change 100000 with HASH_ITERATIONS. rewrite Hkey. simpl.
    by rewrite bool_decide_eq_true_2.
  - intros other other_b64 Hother Hne. rewrite Hverify.
    change "sha256" with HASH_ALGORITHM. change 100000 with HASH_ITERATIONS.
    rewrite Hother. simpl. by rewrite bool_decide_eq_false_2.
Qed.

Lemma hash_then_verify_witness :
  ∃ stored,
    hash_password primitives "secret" (Some "c2FsdA==") = Ret (stored, "c2FsdA==")
    ∧ verify_password primitives stored "secret" "c2FsdA==" = Ret true
    ∧ ∀ other other_b64,
        pbkdf2_b64 primitives HASH_ALGORITHM other "c2FsdA==" HASH_ITERATIONS
        = Ret other_b64 →
        other_b64 ≠ "b64-secret-c2FsdA==" →
        verify_password primitives stored other "c2FsdA==" = Ret false.
Proof.
  apply (hash_then_verify primitives "secret" "c2FsdA==" "b64-secret-c2FsdA==");
    reflexivity.
Defined.



End hash_facts.
